(** * Book-list scraper: a shallow embedding of [main.py]

    The script fetches pages with a retry loop ([make_request]), enriches
    CSV rows with rating data ([scrape_book_data], [scrape_gr_data]) and
    optionally corrects title/author pairs from a language-model reply
    ([verify_book_info]).

    Conventions of the embedding.
    - A Python [str] is a [string]; character classes (digits, whitespace,
      case) are those of the ASCII range, other bytes are opaque.
    - A Python exception is a value of [exn]; code that may raise returns
      a [result].
    - The outside world (HTTP transport, language model, completion order
      of the thread pool) is passed in as an oracle.
    - [print] calls only write to the console; they appear in the model
      only where evaluating their argument can raise. *)

From Stdlib Require Import String Ascii List ZArith NArith Bool Lia Arith.
From Stdlib Require Import Permutation QArith.
Import ListNotations.

Local Open Scope string_scope.
Local Open Scope Z_scope.
Local Open Scope list_scope.

(* ================================================================= *)
(** ** Exceptions and results *)

Inductive exn : Type :=
| ValueError (msg : string)
| IndexError (msg : string)
| TypeError (msg : string)
| RequestException (msg : string)
| CsvError (msg : string)
| OSError (msg : string)
| StopIteration.

(** [str(e)] *)
Definition exn_str (e : exn) : string :=
  match e with
  | ValueError m | IndexError m | TypeError m | RequestException m
  | CsvError m | OSError m => m
  | StopIteration => ""
  end.

Inductive result (A : Type) : Type :=
| Ok (a : A)
| Raise (e : exn).
Arguments Ok {A} a.
Arguments Raise {A} e.

Definition bind {A B} (r : result A) (k : A -> result B) : result B :=
  match r with
  | Ok a => k a
  | Raise e => Raise e
  end.

Notation "'do' x <- r ; k" := (bind r (fun x => k))
  (at level 10, x pattern, r at level 100, k at level 200).

(* ================================================================= *)
(** ** Python string operations used by the script *)

Module Str.

Definition is_digit (c : ascii) : bool :=
  let n := N_of_ascii c in ((48 <=? n) && (n <=? 57))%N.

Definition digit_val (c : ascii) : Z := Z.of_N (N_of_ascii c) - 48.

(** [str.isspace] on the ASCII range *)
Definition is_space (c : ascii) : bool :=
  let n := N_of_ascii c in
  (((9 <=? n) && (n <=? 13)) || ((28 <=? n) && (n <=? 32)))%N.

Definition lower_char (c : ascii) : ascii :=
  let n := N_of_ascii c in
  if ((65 <=? n) && (n <=? 90))%N then ascii_of_N (n + 32) else c.

(** [s.lower()] *)
Fixpoint lower (s : string) : string :=
  match s with
  | EmptyString => EmptyString
  | String c s' => String (lower_char c) (lower s')
  end.

Fixpoint lstrip_by (p : ascii -> bool) (s : string) : string :=
  match s with
  | EmptyString => EmptyString
  | String c s' => if p c then lstrip_by p s' else s
  end.

Fixpoint rstrip_by (p : ascii -> bool) (s : string) : string :=
  match s with
  | EmptyString => EmptyString
  | String c s' =>
      match rstrip_by p s' with
      | EmptyString => if p c then EmptyString else String c EmptyString
      | r => String c r
      end
  end.

Definition strip_by (p : ascii -> bool) (s : string) : string :=
  rstrip_by p (lstrip_by p s).

(** [s.strip()] *)
Definition strip (s : string) : string := strip_by is_space s.

Fixpoint mem_char (c : ascii) (chars : string) : bool :=
  match chars with
  | EmptyString => false
  | String d chars' => Ascii.eqb c d || mem_char c chars'
  end.

(** [s.strip(chars)] *)
Definition strip_chars (chars s : string) : string :=
  strip_by (fun c => mem_char c chars) s.

(** [drop_prefix sep s] is [Some rest] when [s = sep ++ rest]. *)
Fixpoint drop_prefix (sep s : string) : option string :=
  match sep with
  | EmptyString => Some s
  | String a sep' =>
      match s with
      | EmptyString => None
      | String b s' => if Ascii.eqb a b then drop_prefix sep' s' else None
      end
  end.

(** [s.partition(sep)]: the text before and after the leftmost
    occurrence of [sep], if there is one. *)
Fixpoint partition (sep s : string) : option (string * string) :=
  match drop_prefix sep s with
  | Some rest => Some (EmptyString, rest)
  | None =>
      match s with
      | EmptyString => None
      | String c s' =>
          match partition sep s' with
          | Some (before, rest) => Some (String c before, rest)
          | None => None
          end
      end
  end.

(** [s.split(sep)] for a non-empty [sep]: cut at every occurrence found
    scanning left to right.  [fuel] bounds the number of cuts; every cut
    consumes at least one character, so [S (length s)] is enough. *)
Fixpoint split_fuel (fuel : nat) (sep s : string) : list string :=
  match fuel with
  | O => [s]
  | S fuel' =>
      match partition sep s with
      | Some (before, rest) => before :: split_fuel fuel' sep rest
      | None => [s]
      end
  end.

Definition split (sep s : string) : list string :=
  split_fuel (S (String.length s)) sep s.

(** [sep.join(parts)] *)
Definition join (sep : string) (parts : list string) : string :=
  String.concat sep parts.

(** [s.replace(old, new)] for a non-empty [old] *)
Definition replace (old new s : string) : string :=
  join new (split old s).

End Str.

(* ================================================================= *)
(** ** HTTP fetcher: [make_request] *)

Record Response : Type := mkResponse {
  status_code : Z;
  text : string
}.

(** What [requests_retry_session().get(url, headers=..., timeout=30)]
    does on one call: it returns a response, or raises a
    [RequestException] (connection error, timeout, exhausted transport
    retries). *)
Inductive get_outcome : Type :=
| GotResponse (r : Response)
| GetFailed (msg : string).

(** The transport oracle: outcome of the [k]-th [get] issued for [url]
    by one call of [make_request]. *)
Definition network : Type := string -> nat -> get_outcome.

(** [response.raise_for_status()] *)
Definition raise_for_status (r : Response) : result unit :=
  if (400 <=? status_code r) && (status_code r <? 600)
  then Raise (RequestException "HTTPError")
  else Ok tt.

(** [bool(response)] is [response.ok] *)
Definition response_ok (r : Response) : bool :=
  match raise_for_status r with
  | Ok _ => true
  | Raise _ => false
  end.

Inductive event : Type :=
| EvGet (url : string)
| EvSleep (secs : Z).

Definition trace : Type := list event.

(** [range(n)] *)
Definition range (n : Z) : list Z := map Z.of_nat (seq 0 (Z.to_nat n)).

(** Body of the [try] block of [make_request]. *)
Definition try_get (net : network) (url : string) (attempt : Z) : result Response :=
  match net url (Z.to_nat attempt) with
  | GetFailed msg => Raise (RequestException msg)
  | GotResponse response =>
      do _ <- raise_for_status response;
      Ok response
  end.

(** The [for attempt in range(max_retries)] loop; falling off the end
    of the loop returns [None]. *)
Fixpoint make_request_loop (net : network) (url : string) (max_retries : Z)
    (attempts : list Z) : option Response * trace :=
  match attempts with
  | [] => (None, [])
  | attempt :: rest =>
      match try_get net url attempt with
      | Ok response => (Some response, [EvGet url])
      | Raise _ =>
          if attempt =? max_retries - 1 then (None, [EvGet url])
          else
            let '(r, tr) := make_request_loop net url max_retries rest in
            (r, EvGet url :: EvSleep (2 ^ attempt) :: tr)
      end
  end.

Definition make_request (net : network) (url : string) (max_retries : Z)
    : option Response * trace :=
  make_request_loop net url max_retries (range max_retries).

Definition default_max_retries : Z := 5.

(* ================================================================= *)
(** ** A backtracking matcher for the regular expressions of the script

    The one pattern of the script is a sequence of single-character
    classes under a quantifier, with two capture groups.  The matcher
    follows the search order of Python's [re]: a greedy quantifier tries
    the longest repetition first, a lazy one the shortest, and [search]
    tries start positions left to right. *)

Module Re.

Inductive cls : Type :=
| Digit                (* \d *)
| Dot                  (* .  *)
| Lit (c : ascii).

Inductive item : Type :=
| Rep (k : cls) (lo : nat) (hi : option nat) (greedy : bool)
| Open (g : nat)
| Close (g : nat).

Definition pattern : Type := list item.

(** [dotall] is the [re.DOTALL] flag. *)
Definition cls_match (dotall : bool) (k : cls) (c : ascii) : bool :=
  match k with
  | Digit => Str.is_digit c
  | Dot => dotall || negb (Ascii.eqb c "010")
  | Lit d => Ascii.eqb c d
  end.

Definition below (hi : option nat) (n : nat) : bool :=
  match hi with
  | None => true
  | Some h => (n <? h)%nat
  end.

Record caps : Type := mkCaps {
  starts : list (nat * nat);          (* group |-> position of its "(" *)
  spans : list (nat * (nat * nat))    (* group |-> (start, end) *)
}.

Definition no_caps : caps := mkCaps [] [].

Fixpoint assoc {A} (g : nat) (l : list (nat * A)) : option A :=
  match l with
  | [] => None
  | (h, a) :: l' => if (g =? h)%nat then Some a else assoc g l'
  end.

Definition open_group (g pos : nat) (st : caps) : caps :=
  mkCaps ((g, pos) :: starts st) (spans st).

Definition close_group (g pos : nat) (st : caps) : caps :=
  match assoc g (starts st) with
  | Some b => mkCaps (starts st) ((g, (b, pos)) :: spans st)
  | None => st
  end.

Definition or_else {A} (a : option A) (b : unit -> option A) : option A :=
  match a with
  | Some r => Some r
  | None => b tt
  end.

(** A quantified class: [n] repetitions are already taken, [s] is what
    is left of the subject at offset [pos], [cont] matches the rest of
    the pattern.  A greedy quantifier first tries to take one more
    character and only then to stop; a lazy one the other way round. *)
Fixpoint rep (dotall : bool) (k : cls) (lo : nat) (hi : option nat) (greedy : bool)
    (cont : string -> nat -> option (nat * caps)) (s : string) (n pos : nat)
    {struct s} : option (nat * caps) :=
  let stop := fun _ : unit => if (lo <=? n)%nat then cont s pos else None in
  let more := fun _ : unit =>
    match s with
    | String c s' =>
        if cls_match dotall k c && below hi n
        then rep dotall k lo hi greedy cont s' (S n) (S pos) else None
    | EmptyString => None
    end in
  if greedy then or_else (more tt) stop else or_else (stop tt) more.

(** Match [items] against [s], which begins at offset [pos] of the
    subject.  Returns the end offset and the captures of the first
    successful path. *)
Fixpoint match_here (dotall : bool) (items : pattern) (s : string) (pos : nat)
    (st : caps) {struct items} : option (nat * caps) :=
  match items with
  | [] => Some (pos, st)
  | Open g :: rest => match_here dotall rest s pos (open_group g pos st)
  | Close g :: rest => match_here dotall rest s pos (close_group g pos st)
  | Rep k lo hi greedy :: rest =>
      rep dotall k lo hi greedy
          (fun s' pos' => match_here dotall rest s' pos' st) s 0%nat pos
  end.

Record match_obj : Type := mkMatch {
  m_start : nat;
  m_end : nat;
  m_caps : caps
}.

Fixpoint search_from (dotall : bool) (items : pattern) (s : string) (pos : nat)
    : option match_obj :=
  match match_here dotall items s pos no_caps with
  | Some (e, st) => Some (mkMatch pos e st)
  | None =>
      match s with
      | EmptyString => None
      | String _ s' => search_from dotall items s' (S pos)
      end
  end.

(** [re.search(pattern, subject, flags)] *)
Definition search (dotall : bool) (items : pattern) (subject : string)
    : option match_obj :=
  search_from dotall items subject 0.

(** [match.group(g)]; [None] for a group that took no part. *)
Definition group (subject : string) (m : match_obj) (g : nat) : option string :=
  match assoc g (spans (m_caps m)) with
  | Some (b, e) => Some (substring b (e - b) subject)
  | None => None
  end.

Fixpoint lits (s : string) : pattern :=
  match s with
  | EmptyString => []
  | String c s' => Rep (Lit c) 1 (Some 1%nat) true :: lits s'
  end.

Definition plus (k : cls) : item := Rep k 1 None true.
Definition star (k : cls) : item := Rep k 0 None true.
Definition lazy_star (k : cls) : item := Rep k 0 None false.
Definition opt (k : cls) : item := Rep k 0 (Some 1%nat) true.

End Re.

(* ================================================================= *)
(** ** Values and number parsing *)

(** A cell of an output row: the script puts strings, [None], a float
    and an int into its result lists.  [VFloat q] stands for the double
    nearest to the rational [q]; rounding is not modelled. *)
Inductive value : Type :=
| VNone
| VStr (s : string)
| VFloat (q : Q)
| VInt (z : Z).

Fixpoint span_digits (s : string) : string * string :=
  match s with
  | EmptyString => (EmptyString, EmptyString)
  | String c s' =>
      if Str.is_digit c
      then let '(d, r) := span_digits s' in (String c d, r)
      else (EmptyString, s)
  end.

Fixpoint digits_value (acc : Z) (s : string) : Z :=
  match s with
  | EmptyString => acc
  | String c s' => digits_value (10 * acc + Str.digit_val c) s'
  end.

Definition split_sign (s : string) : Z * string :=
  match s with
  | String "-" r => (-1, r)
  | String "+" r => (1, r)
  | _ => (1, s)
  end.

(** [sys.get_int_max_str_digits()]: the interpreter's default cap on the
    number of digits of a string handed to [int]. *)
Definition int_max_str_digits : nat := 4300.

Definition int_limit_message : string :=
  "Exceeds the limit (4300 digits) for integer string conversion".

(** [int(s)] for a string argument, on plain decimal literals
    [ws* sign? digit+ ws*].  The digits after the sign are counted first,
    leading zeros included: more than [int_max_str_digits] of them raise
    [ValueError] whatever follows (the message is kept up to its colon).
    Underscore digit grouping is not modelled: the model raises where
    Python would accept it.  Integers are unbounded. *)
Definition py_int (s : string) : result Z :=
  let '(sign, body) := split_sign (Str.strip s) in
  let '(d, r) := span_digits body in
  if (int_max_str_digits <? String.length d)%nat
  then Raise (ValueError int_limit_message)
  else
    match d, r with
    | String _ _, EmptyString => Ok (sign * digits_value 0 d)
    | _, _ => Raise (ValueError "invalid literal for int() with base 10")
    end.

(** [float(s)] for a string argument, on plain decimal literals
    [ws* sign? (digit+ (. digit* )? | . digit+) ws*].  Exponents,
    [inf]/[nan] and underscores are not modelled: the model raises where
    Python would accept them. *)
Definition py_float (s : string) : result Q :=
  let '(sign, body) := split_sign (Str.strip s) in
  let '(ip, r) := span_digits body in
  match r with
  | EmptyString =>
      match ip with
      | EmptyString => Raise (ValueError "could not convert string to float")
      | _ => Ok (inject_Z (sign * digits_value 0 ip))
      end
  | String "." r' =>
      let '(fp, r'') := span_digits r' in
      match r'', (ip ++ fp)%string with
      | EmptyString, String _ _ =>
          Ok (Qred (Qmake (sign * digits_value 0 (ip ++ fp)%string)
                          (Z.to_pos (10 ^ Z.of_nat (String.length fp)))))
      | _, _ => Raise (ValueError "could not convert string to float")
      end
  | _ => Raise (ValueError "could not convert string to float")
  end.

(* ================================================================= *)
(** ** Row enricher: [scrape_book_data] *)

Definition GR_URL : string := "https://www.goodreads.com".

(** [title, author, *rest = row] *)
Definition unpack_title_author (row : list string)
    : result (string * string * list string) :=
  match row with
  | title :: author :: rest => Ok (title, author, rest)
  | [_] => Raise (ValueError "not enough values to unpack (expected at least 2, got 1)")
  | [] => Raise (ValueError "not enough values to unpack (expected at least 2, got 0)")
  end.

(** r"(\d+\.\d+) avg rating.*?(\d+,?\d* ) ratings" *)
Definition rating_pattern : Re.pattern :=
  ([Re.Open 1; Re.plus Re.Digit] ++ Re.lits "." ++ [Re.plus Re.Digit; Re.Close 1]
   ++ Re.lits " avg rating"
   ++ [Re.lazy_star Re.Dot;
       Re.Open 2; Re.plus Re.Digit; Re.opt (Re.Lit ","); Re.star Re.Digit; Re.Close 2]
   ++ Re.lits " ratings")%list.

(** [match.group(g)] handed to a conversion that needs a string. *)
Definition group_str (subject : string) (m : Re.match_obj) (g : nat) : result string :=
  match Re.group subject m g with
  | Some s => Ok s
  | None => Raise (TypeError "argument must be a string or a real number, not 'NoneType'")
  end.

(** Lines 184-190: the rating and the rating count found in a page. *)
Definition extract_rating (page : string) : result (value * value) :=
  match Re.search true rating_pattern page with
  | Some m =>
      do g1 <- group_str page m 1;
      do rating <- py_float g1;
      do g2 <- group_str page m 2;
      do num_ratings <- py_int (Str.replace "," "" g2);
      Ok (VFloat rating, VInt num_ratings)
  | None => Ok (VNone, VNone)
  end.

(** Truth value of what [make_request] returned: [None] is false, a
    response is as true as [response.ok]. *)
Definition truthy (response : option Response) : bool :=
  match response with
  | None => false
  | Some r => response_ok r
  end.

Definition search_url (title author : string) : string :=
  let q := Str.lower (Str.replace " " "+" (title ++ " " ++ author)%string) in
  (GR_URL ++ "/search?q=" ++ q ++ "&qid=")%string.

Definition scrape_book_data (net : network) (row : list string)
    : result (list value) :=
  do (title, author, _) <- unpack_title_author row;
  let url := search_url title author in
  let response := fst (make_request net url default_max_retries) in
  if negb (truthy response) then Ok (map VStr row ++ [VNone; VNone])
  else
    match response with
    | None => Ok (map VStr row ++ [VNone; VNone])
    | Some r =>
        do (rating, num_ratings) <- extract_rating (text r);
        Ok (map VStr row ++ [rating; num_ratings])
    end.

(* ================================================================= *)
(** ** CSV store: Python's [csv] module with the default dialect

    Delimiter comma, double-quote character, [QUOTE_MINIMAL], doubled quotes,
    line terminator CR LF.  The reader is the character automaton of
    the [csv] module's reader; the field size limit is not modelled. *)

Module Csv.

Definition CR : ascii := "013".
Definition LF : ascii := "010".
Definition COMMA : ascii := ",".
Definition QUOTE : ascii := "034".

Definition s1 (c : ascii) : string := String c EmptyString.

(** *** Writer *)

Definition special (c : ascii) : bool :=
  Ascii.eqb c COMMA || Ascii.eqb c QUOTE || Ascii.eqb c CR || Ascii.eqb c LF.

Fixpoint needs_quote (s : string) : bool :=
  match s with
  | EmptyString => false
  | String c s' => special c || needs_quote s'
  end.

Fixpoint double_quotes (s : string) : string :=
  match s with
  | EmptyString => EmptyString
  | String c s' =>
      if Ascii.eqb c QUOTE then String QUOTE (String QUOTE (double_quotes s'))
      else String c (double_quotes s')
  end.

Definition field_text (s : string) : string :=
  if needs_quote s then (s1 QUOTE ++ double_quotes s ++ s1 QUOTE)%string else s.

(** The text of a record before its line terminator.  A record that has
    fields but whose text is empty is written as a pair of quotes. *)
Definition record_text (row : list string) : string :=
  let rec := Str.join (s1 COMMA) (map field_text row) in
  if (0 <? length row)%nat && String.eqb rec EmptyString
  then (s1 QUOTE ++ s1 QUOTE)%string else rec.

(** [writer.writerow(row)]: the text added to the file. *)
Definition writerow (row : list string) : string :=
  (record_text row ++ s1 CR ++ s1 LF)%string.

(** [writer.writerows(rows)] *)
Fixpoint writerows (rows : list (list string)) : string :=
  match rows with
  | [] => EmptyString
  | row :: rows' => (writerow row ++ writerows rows')%string
  end.

(** *** Text-mode file reading *)

(** [open(path, "r")]: universal newlines, CR LF and a lone CR both
    read as LF. *)
Fixpoint translate_newlines (s : string) : string :=
  match s with
  | EmptyString => EmptyString
  | String c s' =>
      if Ascii.eqb c CR then
        match s' with
        | String d s'' =>
            if Ascii.eqb d LF then String LF (translate_newlines s'')
            else String LF (translate_newlines s')
        | EmptyString => String LF EmptyString
        end
      else String c (translate_newlines s')
  end.

(** Iterating over a text file: the lines, each with its LF. *)
Fixpoint lines_from (cur : string) (s : string) : list string :=
  match s with
  | EmptyString => match cur with EmptyString => [] | _ => [cur] end
  | String c s' =>
      if Ascii.eqb c LF then (cur ++ s1 LF)%string :: lines_from EmptyString s'
      else lines_from (cur ++ s1 c)%string s'
  end.

Definition readlines (content : string) : list string :=
  lines_from EmptyString content.

(** *** Reader *)

Inductive rstate : Type :=
| START_RECORD
| START_FIELD
| IN_FIELD
| IN_QUOTED_FIELD
| QUOTE_IN_QUOTED_FIELD
| EAT_CRNL.

Record parser : Type := mkParser {
  state : rstate;
  field : string;
  fields : list string
}.

Definition save_field (p : parser) (st : rstate) : parser :=
  mkParser st EmptyString (fields p ++ [field p]).

Definition add_char (p : parser) (c : ascii) (st : rstate) : parser :=
  mkParser st (field p ++ s1 c)%string (fields p).

Definition is_nl (c : ascii) : bool := Ascii.eqb c LF || Ascii.eqb c CR.

Definition start_field (p : parser) (c : option ascii) : parser :=
  match c with
  | None => save_field p START_RECORD
  | Some c =>
      if is_nl c then save_field p EAT_CRNL
      else if Ascii.eqb c QUOTE then mkParser IN_QUOTED_FIELD (field p) (fields p)
      else if Ascii.eqb c COMMA then save_field p START_FIELD
      else add_char p c IN_FIELD
  end.

(** One step of the automaton; [None] is the end-of-line mark the
    reader feeds after the last character of every line. *)
Definition process_char (p : parser) (c : option ascii) : result parser :=
  match state p with
  | START_RECORD =>
      match c with
      | None => Ok p
      | Some ch =>
          if is_nl ch then Ok (mkParser EAT_CRNL (field p) (fields p))
          else Ok (start_field p c)
      end
  | START_FIELD => Ok (start_field p c)
  | IN_FIELD =>
      match c with
      | None => Ok (save_field p START_RECORD)
      | Some ch =>
          if is_nl ch then Ok (save_field p EAT_CRNL)
          else if Ascii.eqb ch COMMA then Ok (save_field p START_FIELD)
          else Ok (add_char p ch IN_FIELD)
      end
  | IN_QUOTED_FIELD =>
      match c with
      | None => Ok p
      | Some ch =>
          if Ascii.eqb ch QUOTE
          then Ok (mkParser QUOTE_IN_QUOTED_FIELD (field p) (fields p))
          else Ok (add_char p ch IN_QUOTED_FIELD)
      end
  | QUOTE_IN_QUOTED_FIELD =>
      match c with
      | None => Ok (save_field p START_RECORD)
      | Some ch =>
          if Ascii.eqb ch QUOTE then Ok (add_char p ch IN_QUOTED_FIELD)
          else if Ascii.eqb ch COMMA then Ok (save_field p START_FIELD)
          else if is_nl ch then Ok (save_field p EAT_CRNL)
          else Ok (add_char p ch IN_FIELD)
      end
  | EAT_CRNL =>
      match c with
      | None => Ok (mkParser START_RECORD (field p) (fields p))
      | Some ch =>
          if is_nl ch then Ok p
          else Raise (CsvError "new-line character seen in unquoted field")
      end
  end.

Fixpoint process_line (p : parser) (line : string) : result parser :=
  match line with
  | EmptyString => process_char p None
  | String c line' =>
      do p' <- process_char p (Some c);
      process_line p' line'
  end.

Definition fresh : parser := mkParser START_RECORD EmptyString [].

(** The records the reader yields from the given lines.  A record ends
    with the line that leaves the automaton in [START_RECORD]; input
    that ends inside a field closes that field. *)
Fixpoint read_records (p : parser) (lines : list string)
    : result (list (list string)) :=
  match lines with
  | [] =>
      match state p, field p with
      | IN_QUOTED_FIELD, _ | _, String _ _ => Ok [fields (save_field p START_RECORD)]
      | _, _ => Ok []
      end
  | line :: lines' =>
      do p' <- process_line p line;
      match state p' with
      | START_RECORD =>
          do rest <- read_records fresh lines';
          Ok (fields p' :: rest)
      | _ => read_records p' lines'
      end
  end.

(** [list(csv.reader(f))] *)
Definition reader (lines : list string) : result (list (list string)) :=
  read_records fresh lines.

End Csv.

(** [write_csv(file, headers, data)] on string cells: the file is opened
    with an empty [newline] argument, so its content is the writer's text
    unchanged. *)
Definition write_csv (headers : list string) (data : list (list string)) : string :=
  (Csv.writerow headers ++ Csv.writerows data)%string.

(** Lines 200-203 (and 106-109): open the file in text mode, take the
    first record as the headers and the others as the rows.  The script
    reads the rows one at a time; the model reads them all at once, which
    raises the same exception when a later line is malformed. *)
Definition read_csv (content : string) : result (list string * list (list string)) :=
  do records <- Csv.reader (Csv.readlines (Csv.translate_newlines content));
  match records with
  | [] => Raise StopIteration
  | headers :: rows => Ok (headers, rows)
  end.

(* ================================================================= *)
(** ** Title/author verifier: [verify_title_and_author], [verify_book_info] *)

(** What [openai.chat.completions.create(...)] does: it raises, or it
    returns a response whose choices carry a message content each
    ([None] for an absent content). *)
Inductive llm_outcome : Type :=
| LlmRaise (e : exn)
| LlmResponse (choices : list (option string)).

(** The language model, as a function of the user prompt. *)
Definition language_model : Type := string -> llm_outcome.

Definition verify_prompt (title author : string) : string :=
  ("Verify if '" ++ title ++ "' by " ++ author
   ++ " is the correct title and author pairing. If it's incorrect, provide the correct author and title pairing. If it's correct, just respond with 'Correct'. If incorrect, please format accordingly: 'title: 'place correct title here', author: 'place correct author here''.")%string.

(** [l[i]] *)
Definition list_get {A} (l : list A) (i : nat) : result A :=
  match nth_error l i with
  | Some a => Ok a
  | None => Raise (IndexError "list index out of range")
  end.

(** [x or "correct"] for an optional string [x] *)
Definition or_correct (content : option string) : string :=
  match content with
  | Some (String c s) => String c s
  | _ => "correct"
  end.

Definition verify_title_and_author (llm : language_model) (title author : string)
    : string :=
  match llm (verify_prompt title author) with
  | LlmRaise _ => "correct"
  | LlmResponse choices =>
      match list_get choices 0 with
      | Ok content => or_correct content
      | Raise _ => "correct"
      end
  end.

Definition NL : string := String "010" EmptyString.

(** The body of the [try] block of lines 118-123: the suggested title
    and author, or the exception raised. *)
Definition parse_suggestion (res : string) : result (string * string) :=
  let res_parts := Str.split ", author:" (Str.replace NL " " res) in
  if (length res_parts =? 2)%nat then
    do part0 <- list_get res_parts 0;
    do after_title <- list_get (Str.split "title:" part0) 1;
    let new_title := Str.strip_chars "'" (Str.strip after_title) in
    do part1 <- list_get res_parts 1;
    let new_author := Str.strip_chars "'" (Str.strip part1) in
    Ok (new_title, new_author)
  else Raise (ValueError "Unexpected response format").

Record verify_state : Type := mkVerify {
  updated_rows : list (list string);
  comparison_rows : list (list value)
}.

(** [res.lower().strip() == "correct"] *)
Definition is_correct (res : string) : bool :=
  String.eqb (Str.strip (Str.lower res)) "correct".

(** One iteration of the loop of [verify_book_info] (lines 110-135). *)
Definition verify_row (llm : language_model) (st : verify_state) (row : list string)
    : result verify_state :=
  do (title, author, rest) <- unpack_title_author row;
  let res := verify_title_and_author llm title author in
  if is_correct res then
    Ok (mkVerify (updated_rows st ++ [row]) (comparison_rows st))
  else
    match parse_suggestion res with
    | Ok (new_title, new_author) =>
        Ok (mkVerify
              (updated_rows st ++ [[new_title; new_author] ++ rest])
              (comparison_rows st
               ++ [[VStr title; VStr new_title; VStr author; VStr new_author; VNone]]))
    | Raise e =>
        Ok (mkVerify
              (updated_rows st ++ [row])
              (comparison_rows st
               ++ [[VStr title; VStr title; VStr author; VStr author; VStr (exn_str e)]]))
    end.

Fixpoint verify_rows (llm : language_model) (st : verify_state)
    (rows : list (list string)) : result verify_state :=
  match rows with
  | [] => Ok st
  | row :: rows' =>
      do st' <- verify_row llm st row;
      verify_rows llm st' rows'
  end.

Definition comparison_headers : list string :=
  ["Old Title"; "New Title"; "Old Author"; "New Author"; "Error"].

(** What a run of [verify_book_info] leaves behind: the rows written
    back to the input file and the rows of the comparison file. *)
Record verify_output : Type := mkVerifyOutput {
  out_headers : list string;
  out_rows : list (list string);
  out_comparison : list (list value)
}.

Definition verify_book_info (llm : language_model) (input_csv : string)
    : result verify_output :=
  do (headers, rows) <- read_csv input_csv;
  do st <- verify_rows llm (mkVerify [] []) rows;
  Ok (mkVerifyOutput headers (updated_rows st) (comparison_rows st)).

(* ================================================================= *)
(** ** Pipeline orchestrator: [scrape_gr_data] *)

(** A submitted task: the row it was given and what [future.result()]
    does once the task is done. *)
Record future : Type := mkFuture {
  fut_row : list string;
  fut_result : result (list value)
}.

(** [executor.submit(scrape_book_data, row)] for every row; the task
    submitted [i]-th talks to the network [nets i]. *)
Fixpoint submit_all (nets : nat -> network) (i : nat) (rows : list (list string))
    : list future :=
  match rows with
  | [] => []
  | row :: rows' =>
      mkFuture row (scrape_book_data (nets i) row) :: submit_all nets (S i) rows'
  end.

(** [as_completed(future_to_row)]: the futures in the order in which
    they finish, given as a list of submission indexes. *)
Definition as_completed (order : list nat) (futures : list future) : list future :=
  flat_map (fun i => match nth_error futures i with
                     | Some f => [f]
                     | None => []
                     end) order.

(** The collection loop (lines 213-223). *)
Fixpoint collect (done : list future) (results : list (list value))
    : result (list (list value)) :=
  match done with
  | [] => Ok results
  | f :: done' =>
      match fut_result f with
      | Ok data => collect done' (results ++ [data])
      | Raise _ =>
          do _ <- list_get (fut_row f) 0;     (* the message prints row[0] *)
          collect done' (results ++ [map VStr (fut_row f) ++ [VNone; VNone]])
      end
  end.

Definition OUTPUT_CSV : string := "output.csv".
Definition BACKUP_CSV : string := "backup_output.csv".

(** Where the results of a run ended up (lines 227-241). *)
Inductive sink : Type :=
| Written (file : string)
| Console.

Record run_output : Type := mkRun {
  run_headers : list string;
  run_results : list (list value);
  run_sink : sink
}.

(** [writable file] tells whether [write_csv(file, ...)] succeeds. *)
Definition store_results (writable : string -> bool) : sink :=
  if writable OUTPUT_CSV then Written OUTPUT_CSV
  else if writable BACKUP_CSV then Written BACKUP_CSV
  else Console.

Definition scrape_gr_data (nets : nat -> network) (order : list nat)
    (writable : string -> bool) (input_csv : string) : result run_output :=
  do (headers, rows) <- read_csv input_csv;
  do results <- collect (as_completed order (submit_all nets 0 rows)) [];
  Ok (mkRun (headers ++ ["rating"; "num_ratings"]) results (store_results writable)).

(* ================================================================= *)
(** ** Vocabulary of the properties *)

(** The [attempt]-th request of a [make_request] call fails. *)
Definition attempt_fails (net : network) (url : string) (attempt : Z) : Prop :=
  exists e, try_get net url attempt = Raise e.

(** Number of requests sent, and the waits, in trace order. *)
Fixpoint attempts (tr : trace) : nat :=
  match tr with
  | [] => 0
  | EvGet _ :: tr' => S (attempts tr')
  | EvSleep _ :: tr' => attempts tr'
  end.


(** [k] failed requests, each followed by its wait. *)
Definition backoff (url : string) (failed : list Z) : trace :=
  flat_map (fun a => [EvGet url; EvSleep (2 ^ a)]) failed.

(** All characters of [s] satisfy [p]. *)
Fixpoint all_chars (p : ascii -> bool) (s : string) : bool :=
  match s with
  | EmptyString => true
  | String c s' => p c && all_chars p s'
  end.

(** [sep in s] *)
Definition contains (sep s : string) : bool :=
  match Str.partition sep s with
  | Some _ => true
  | None => false
  end.

(** [sep] does not occur in [s ++ rest] at an offset inside [s]. *)
Fixpoint no_start (sep s rest : string) : Prop :=
  match s with
  | EmptyString => True
  | String c s' =>
      Str.drop_prefix sep (String c s' ++ rest) = None /\ no_start sep s' rest
  end.

(** Declarative reading of a pattern: [matches dotall items c pos st st']
    says that [items] can consume exactly [c], found at offset [pos],
    turning the captures [st] into [st']. *)
Inductive matches (dotall : bool)
    : Re.pattern -> string -> nat -> Re.caps -> Re.caps -> Prop :=
| M_nil pos st : matches dotall [] EmptyString pos st st
| M_open g rest c pos st st' :
    matches dotall rest c pos (Re.open_group g pos st) st' ->
    matches dotall (Re.Open g :: rest) c pos st st'
| M_close g rest c pos st st' :
    matches dotall rest c pos (Re.close_group g pos st) st' ->
    matches dotall (Re.Close g :: rest) c pos st st'
| M_rep k lo hi greedy rest c1 c2 pos st st' :
    all_chars (Re.cls_match dotall k) c1 = true ->
    (lo <= String.length c1)%nat ->
    (forall h, hi = Some h -> (String.length c1 <= h)%nat) ->
    matches dotall rest c2 (pos + String.length c1) st st' ->
    matches dotall (Re.Rep k lo hi greedy :: rest) (c1 ++ c2) pos st st'.

(** No match of [items] starts at an offset inside [pre], where the
    subject is [pre ++ rest] and [pre] begins at offset [pos]. *)
Fixpoint no_match_in (dotall : bool) (items : Re.pattern) (pre rest : string)
    (pos : nat) : Prop :=
  match pre with
  | EmptyString => True
  | String c pre' =>
      Re.match_here dotall items (String c pre' ++ rest) pos Re.no_caps = None
      /\ no_match_in dotall items pre' rest (S pos)
  end.

Definition is_digits (s : string) : bool := all_chars Str.is_digit s.

(** The number written [ip.fp]. *)
Definition decimal_value (ip fp : string) : Q :=
  Qred (Qmake (digits_value 0 (ip ++ fp))
              (Z.to_pos (10 ^ Z.of_nat (String.length fp)))).

(** The first and the last character of [s] satisfy [p]. *)
Definition starts_with (p : ascii -> bool) (s : string) : bool :=
  match s with
  | EmptyString => false
  | String c _ => p c
  end.

Fixpoint ends_with (p : ascii -> bool) (s : string) : bool :=
  match s with
  | EmptyString => false
  | String c EmptyString => p c
  | String _ s' => ends_with p s'
  end.

(** The language-model call failed: it raised, or its reply is absent
    (no choice, no content, empty content). *)
Definition llm_failed (o : llm_outcome) : Prop :=
  match o with
  | LlmRaise _ => True
  | LlmResponse [] => True
  | LlmResponse (None :: _) => True
  | LlmResponse (Some EmptyString :: _) => True
  | LlmResponse (Some (String _ _) :: _) => False
  end.

(** A language model that always answers [reply]. *)
Definition llm_says (reply : string) : language_model :=
  fun _ => LlmResponse [Some reply].

(** The reply format asked for in the prompt. *)
Definition suggestion (T A : string) : string :=
  ("title: '" ++ T ++ "', author: '" ++ A ++ "'")%string.

Definition is_quote (c : ascii) : bool := Str.mem_char c "'".

(** Texts that survive the splitting and stripping of lines 118-121. *)
Definition author_ok (A : string) : bool :=
  negb (contains NL A) && negb (contains ", author:" A)
  && negb (starts_with is_quote A) && negb (ends_with is_quote A).

Definition title_ok (T : string) : bool :=
  author_ok T && negb (contains "title:" T).

(** What the specification says of a row whose reply is
    [suggestion T A]: title and author are replaced by [T] and [A], the
    other fields stay, and a comparison entry without error text is
    added. *)
Definition suggestion_applied (T A : string) : Prop :=
  forall (llm : language_model) (st : verify_state) (title author : string)
         (rest : list string),
    verify_title_and_author llm title author = suggestion T A ->
    verify_row llm st (title :: author :: rest)
    = Ok (mkVerify
            (updated_rows st ++ [T :: A :: rest])
            (comparison_rows st
             ++ [[VStr title; VStr T; VStr author; VStr A; VNone]])).

(** What the collection loop is meant to append for a finished task:
    its data, or the row with two [None] cells when it raised. *)
Definition settled (f : future) : list value :=
  match fut_result f with
  | Ok data => data
  | Raise _ => map VStr (fut_row f) ++ [VNone; VNone]
  end.

Definition CRLF : string := String "013" (String "010" EmptyString).

(** [s] has no carriage return. *)
Definition cr_free (s : string) : bool :=
  all_chars (fun c => negb (Ascii.eqb c Csv.CR)) s.

(** [csv.field_size_limit()]: the reader refuses, with [csv.Error], a
    field of more characters than this.  The automaton of this file has
    no such check: what is said about reading back what was written is
    said for fields within the limit, where the automaton is the
    reader. *)
Definition field_size_limit : Z := 131072.

(** As it is read back, [f] is within the reader's limit. *)
Definition fits_field (f : string) : Prop :=
  Z.of_nat (String.length (Csv.translate_newlines f)) <= field_size_limit.

(** The reader seen character by character.  [feed_chars] runs the
    automaton over the characters of a piece of a line.  [feed] runs it
    over a whole text in which every line ends with a line feed: after
    each line feed it gives the end-of-line mark and, when that closes a
    record, puts the record out and starts afresh.  It returns the
    records put out and the state reached. *)
Fixpoint feed_chars (p : Csv.parser) (s : string) : result Csv.parser :=
  match s with
  | EmptyString => Ok p
  | String c s' =>
      do p' <- Csv.process_char p (Some c);
      feed_chars p' s'
  end.

Fixpoint feed (q : Csv.parser) (s : string)
    : result (list (list string) * Csv.parser) :=
  match s with
  | EmptyString => Ok ([], q)
  | String c s' =>
      do q1 <- Csv.process_char q (Some c);
      if Ascii.eqb c Csv.LF then
        do q2 <- Csv.process_char q1 None;
        match Csv.state q2 with
        | Csv.START_RECORD =>
            do (recs, qf) <- feed Csv.fresh s';
            Ok (Csv.fields q2 :: recs, qf)
        | _ => feed q2 s'
        end
      else feed q1 s'
  end.

(** The parser once the text of field [f] has been read from the start
    of a field, [st] being [START_RECORD] or [START_FIELD]. *)
Definition after_field (st : Csv.rstate) (done : list string) (f : string)
    : Csv.parser :=
  if Csv.needs_quote f then Csv.mkParser Csv.QUOTE_IN_QUOTED_FIELD f done
  else match f with
       | EmptyString => Csv.mkParser st EmptyString done
       | _ => Csv.mkParser Csv.IN_FIELD f done
       end.

(** The records as text lines ended by a line feed. *)
Fixpoint lf_text (rows : list (list string)) : string :=
  match rows with
  | [] => EmptyString
  | row :: rows' => (Csv.record_text row ++ String Csv.LF (lf_text rows'))%string
  end.

(** A title with a carriage return in it, the same with a line feed, and
    a word between double quotes. *)
Definition cr_title : string := ("Dune" ++ String "013" "Messiah")%string.
Definition lf_title : string := ("Dune" ++ String "010" "Messiah")%string.
Definition quoted_word : string :=
  (Csv.s1 Csv.QUOTE ++ "Dune" ++ Csv.s1 Csv.QUOTE)%string.

(** An input file with a header and one blank line, and one with a
    header and a row of a single field. *)
Definition csv_blank_line : string := ("title,author" ++ CRLF ++ CRLF)%string.
Definition csv_short_row : string := ("title,author" ++ CRLF ++ "Dune" ++ CRLF)%string.

(** Input files: a full row and a row of one field; a full row and a
    blank line; two full rows. *)
Definition csv_dune_emma : string :=
  ("title,author" ++ CRLF ++ "Dune,Frank Herbert" ++ CRLF ++ "Emma" ++ CRLF)%string.
Definition csv_dune_blank : string :=
  ("title,author" ++ CRLF ++ "Dune,Frank Herbert" ++ CRLF ++ CRLF)%string.
Definition csv_two_books : string :=
  ("title,author" ++ CRLF ++ "Dune,Frank Herbert" ++ CRLF
   ++ "Emma,Jane Austen" ++ CRLF)%string.

(** [s] has no line break character; [l] has none either, except for a
    line feed at its very end. *)
Definition nl_free (s : string) : bool :=
  all_chars (fun c => negb (Csv.is_nl c)) s.

Fixpoint line_ok (l : string) : bool :=
  match l with
  | EmptyString => true
  | String c EmptyString => negb (Ascii.eqb c Csv.CR)
  | String c l' => negb (Csv.is_nl c) && line_ok l'
  end.

(** The reader is at the start of a record or inside a quoted field. *)
Definition between_lines (p : Csv.parser) : Prop :=
  Csv.state p = Csv.START_RECORD \/ Csv.state p = Csv.IN_QUOTED_FIELD.


(** [f] applied to every character. *)
Fixpoint map_chars (f : ascii -> ascii) (s : string) : string :=
  match s with
  | EmptyString => EmptyString
  | String c s' => String (f c) (map_chars f s')
  end.

(** What becomes of a character of the title or the author in the search
    query. *)
Definition query_char (c : ascii) : ascii :=
  Str.lower_char (if Ascii.eqb c " " then "+"%char else c).

(** [res] is [row] followed by two cells. *)
Definition enriched_of (row : list string) (res : list value) : Prop :=
  exists rating num_ratings, res = map VStr row ++ [rating; num_ratings].

(** [row'] has the length of [row] and the same fields after the
    second. *)
Definition same_tail (row row' : list string) : Prop :=
  length row' = length row /\ skipn 2 row' = skipn 2 row.

(** A network on which every request fails, and one that serves the
    same page for every request. *)
Definition net_down : network := fun _ _ => GetFailed "connection refused".
Definition net_page (page : string) : network :=
  fun _ _ => GotResponse (mkResponse 200 page).

(** The number of digits of the count that the rating pattern finds in
    [page]: the length of the second group without its comma, 0 when
    the pattern finds nothing. *)
Definition count_digits (page : string) : nat :=
  match Re.search true rating_pattern page with
  | Some m =>
      match Re.group page m 2 with
      | Some g2 => String.length (Str.replace "," "" g2)
      | None => 0%nat
      end
  | None => 0%nat
  end.

(** What [make_request] hands to [scrape_book_data] for a book. *)
Definition fetched (net : network) (title author : string) : option Response :=
  fst (make_request net (search_url title author) default_max_retries).

(** If a page was fetched, its count is within the cap of [int]. *)
Definition count_fits (response : option Response) : Prop :=
  match response with
  | Some r => (count_digits (text r) <= int_max_str_digits)%nat
  | None => True
  end.

Fixpoint repeat_char (c : ascii) (n : nat) : string :=
  match n with
  | O => EmptyString
  | S n' => String c (repeat_char c n')
  end.

(** A page whose count has one digit more than [int] converts. *)
Definition long_count_page : string :=
  ("4.25 avg rating — " ++ repeat_char "9" 4301 ++ " ratings")%string.

(* ================================================================= *)
(** * Properties *)

(** ** Strings *)

Module StrFacts.

Lemma app_nil_r (s : string) : (s ++ "")%string = s.
Proof. induction s as [|c s IH]; simpl; congruence. Qed.

Lemma app_assoc (a b c : string) : ((a ++ b) ++ c)%string = (a ++ (b ++ c))%string.
Proof. induction a as [|x a IH]; simpl; congruence. Qed.

Lemma length_app (a b : string) :
  String.length (a ++ b) = (String.length a + String.length b)%nat.
Proof. induction a as [|x a IH]; simpl; congruence. Qed.

Lemma all_chars_app (p : ascii -> bool) (a b : string) :
  all_chars p (a ++ b) = all_chars p a && all_chars p b.
Proof.
  induction a as [|x a IH]; simpl; [reflexivity|].
  now rewrite IH, andb_assoc.
Qed.

Lemma all_chars_impl (p q : ascii -> bool) (s : string) :
  (forall c, p c = true -> q c = true) ->
  all_chars p s = true -> all_chars q s = true.
Proof.
  intros Hpq. induction s as [|c s IH]; simpl; [reflexivity|].
  rewrite !andb_true_iff. intros [Hc Hs]. auto.
Qed.

(** *** Stripping *)

Lemma rstrip_by_none (p : ascii -> bool) (s : string) :
  all_chars (fun c => negb (p c)) s = true -> Str.rstrip_by p s = s.
Proof.
  induction s as [|c s IH]; simpl; [reflexivity|].
  rewrite andb_true_iff, negb_true_iff. intros [Hc Hs].
  rewrite (IH Hs), Hc. now destruct s.
Qed.

Lemma strip_by_none (p : ascii -> bool) (s : string) :
  all_chars (fun c => negb (p c)) s = true -> Str.strip_by p s = s.
Proof.
  intros H. unfold Str.strip_by.
  assert (Hl : Str.lstrip_by p s = s).
  { destruct s as [|c s]; simpl in *; [reflexivity|].
    apply andb_true_iff in H as [Hc _]. apply negb_true_iff in Hc. now rewrite Hc. }
  rewrite Hl. now apply rstrip_by_none.
Qed.

(** Stripping only looks at the two ends: a string that neither starts
    nor ends with a stripped character is left alone. *)
Lemma rstrip_by_ends (p : ascii -> bool) (s : string) :
  ends_with p s = false -> Str.rstrip_by p s = s.
Proof.
  induction s as [|c s IH]; simpl; [reflexivity|].
  destruct s as [|d s].
  - simpl. now intros ->.
  - intros H. rewrite (IH H). reflexivity.
Qed.

Lemma strip_by_ends (p : ascii -> bool) (s : string) :
  starts_with p s = false -> ends_with p s = false -> Str.strip_by p s = s.
Proof.
  intros Hs He. unfold Str.strip_by.
  assert (Hl : Str.lstrip_by p s = s).
  { destruct s as [|c s]; simpl in *; [reflexivity | now rewrite Hs]. }
  rewrite Hl. now apply rstrip_by_ends.
Qed.

Lemma ends_with_app_char (p : ascii -> bool) (s : string) (c : ascii) :
  ends_with p (s ++ String c "") = p c.
Proof.
  induction s as [|d s IH]; simpl; [reflexivity|].
  rewrite IH. destruct s; reflexivity.
Qed.

(** *** Prefixes and occurrences *)

Lemma drop_prefix_app (sep rest : string) :
  Str.drop_prefix sep (sep ++ rest) = Some rest.
Proof.
  induction sep as [|a sep IH]; simpl; [reflexivity|].
  now rewrite Ascii.eqb_refl.
Qed.

Lemma drop_prefix_some (sep s rest : string) :
  Str.drop_prefix sep s = Some rest -> s = (sep ++ rest)%string.
Proof.
  revert s. induction sep as [|a sep IH]; intros s; simpl.
  - congruence.
  - destruct s as [|b s]; [discriminate|].
    destruct (Ascii.eqb_spec a b) as [->|]; [|discriminate].
    intros H. now rewrite (IH _ H).
Qed.

Lemma partition_some (sep s before rest : string) :
  Str.partition sep s = Some (before, rest) ->
  s = (before ++ sep ++ rest)%string.
Proof.
  revert before. induction s as [|c s IH]; intros before; simpl.
  - destruct (Str.drop_prefix sep "") eqn:Hd; [|discriminate].
    intros [= <- <-]. now apply drop_prefix_some in Hd.
  - destruct (Str.drop_prefix sep (String c s)) eqn:Hd.
    + intros [= <- <-]. now apply drop_prefix_some in Hd.
    + destruct (Str.partition sep s) as [[b r]|]; [|discriminate].
      intros [= <- <-]. simpl. now rewrite <- (IH b).
Qed.

Lemma partition_unfold (sep s : string) :
  Str.partition sep s
  = match Str.drop_prefix sep s with
    | Some rest => Some (EmptyString, rest)
    | None =>
        match s with
        | EmptyString => None
        | String c s' =>
            match Str.partition sep s' with
            | Some (before, rest) => Some (String c before, rest)
            | None => None
            end
        end
    end.
Proof. destruct s; reflexivity. Qed.

Lemma partition_first (sep a b : string) :
  no_start sep a (sep ++ b) ->
  Str.partition sep (a ++ sep ++ b) = Some (a, b).
Proof.
  induction a as [|c a IH]; simpl.
  - intros _. now rewrite partition_unfold, drop_prefix_app.
  - intros [Hd Hn]. simpl in Hd. rewrite Hd, (IH Hn). reflexivity.
Qed.

Lemma partition_none (sep s : string) :
  no_start sep s "" -> Str.drop_prefix sep "" = None ->
  Str.partition sep s = None.
Proof.
  intros Hn He. induction s as [|c s IH]; simpl.
  - now rewrite He.
  - destruct Hn as [Hd Hn]. rewrite app_nil_r in Hd. rewrite Hd, (IH Hn). reflexivity.
Qed.

Lemma partition_none_inv (sep s : string) :
  Str.partition sep s = None -> no_start sep s "".
Proof.
  induction s as [|c s IH]; simpl; [trivial|].
  rewrite app_nil_r.
  destruct (Str.drop_prefix sep (String c s)); [discriminate|].
  destruct (Str.partition sep s) as [[b r]|]; [discriminate|].
  intros _. split; [reflexivity | now apply IH].
Qed.

(** A character that [sep] starts with cannot be found in a string of
    characters of another kind. *)
Lemma no_start_class (p : ascii -> bool) (sep s rest : string) :
  starts_with p sep = false ->
  sep <> EmptyString ->
  all_chars p s = true ->
  no_start sep s rest.
Proof.
  intros Hsep Hne. induction s as [|c s IH]; simpl; [trivial|].
  rewrite andb_true_iff. intros [Hc Hs]. split; [|now apply IH].
  destruct sep as [|a sep]; [congruence|]. simpl in *.
  destruct (Ascii.eqb_spec a c) as [->|]; [congruence | reflexivity].
Qed.

(** *** Splitting *)

Lemma partition_length (sep s a b : string) :
  Str.partition sep s = Some (a, b) ->
  String.length s = (String.length a + String.length sep + String.length b)%nat.
Proof.
  intros H. apply partition_some in H. subst s.
  rewrite !length_app. lia.
Qed.

(** The fuel of [split] is never used up. *)
Lemma split_fuel_enough (sep : string) (n m : nat) (s : string) :
  sep <> EmptyString ->
  (String.length s < n)%nat -> (String.length s < m)%nat ->
  Str.split_fuel n sep s = Str.split_fuel m sep s.
Proof.
  intros Hne. revert m s. induction n as [|n IH]; intros m s Hn Hm; [lia|].
  destruct m as [|m]; [lia|]. simpl.
  destruct (Str.partition sep s) as [[a b]|] eqn:Hp; [|reflexivity].
  f_equal. apply partition_length in Hp.
  assert (0 < String.length sep)%nat by (destruct sep; [congruence | simpl; lia]).
  apply IH; lia.
Qed.

Lemma split_cons (sep s a b : string) :
  sep <> EmptyString ->
  Str.partition sep s = Some (a, b) ->
  Str.split sep s = a :: Str.split sep b.
Proof.
  intros Hne Hp. unfold Str.split at 1. simpl. rewrite Hp. f_equal.
  apply partition_length in Hp.
  assert (0 < String.length sep)%nat by (destruct sep; [congruence | simpl; lia]).
  apply split_fuel_enough; [assumption | lia | lia].
Qed.

Lemma split_none (sep s : string) :
  Str.partition sep s = None -> Str.split sep s = [s].
Proof. intros Hp. unfold Str.split. simpl. now rewrite Hp. Qed.

End StrFacts.

(** ** The regular-expression matcher *)

Module ReFacts.

Import Re.

Lemma or_else_some {A} (a : option A) (b : unit -> option A) (r : A) :
  or_else a b = Some r -> a = Some r \/ (a = None /\ b tt = Some r).
Proof. destruct a; simpl; auto. Qed.

Section Sound.

Variable dotall : bool.

Lemma rep_sound (k : cls) (lo : nat) (hi : option nat) (greedy : bool)
    (cont : string -> nat -> option (nat * caps)) :
  forall (s : string) (n pos : nat) (r : nat * caps),
    rep dotall k lo hi greedy cont s n pos = Some r ->
    exists s1 s2,
      s = (s1 ++ s2)%string /\
      all_chars (cls_match dotall k) s1 = true /\
      (lo <= n + String.length s1)%nat /\
      (forall h, hi = Some h -> s1 = EmptyString \/ (n + String.length s1 <= h)%nat) /\
      cont s2 (pos + String.length s1)%nat = Some r.
Proof.
  assert (Hstop : forall s n pos r,
             (if (lo <=? n)%nat then cont s pos else None) = Some r ->
             exists s1 s2,
               s = (s1 ++ s2)%string /\
               all_chars (cls_match dotall k) s1 = true /\
               (lo <= n + String.length s1)%nat /\
               (forall h, hi = Some h ->
                          s1 = EmptyString \/ (n + String.length s1 <= h)%nat) /\
               cont s2 (pos + String.length s1)%nat = Some r).
  { intros s n pos r H. destruct (Nat.leb_spec lo n) as [Hlo|]; [|discriminate].
    exists EmptyString, s. simpl. rewrite !Nat.add_0_r.
    repeat split; [lia | auto | assumption]. }
  induction s as [|c s IH]; intros n pos r.
  - destruct greedy; cbn [rep]; intros H;
      apply or_else_some in H as [H|[_ H]]; try discriminate; now apply Hstop.
  - assert (Hmore :
      (if cls_match dotall k c && below hi n
       then rep dotall k lo hi greedy cont s (S n) (S pos) else None) = Some r ->
      exists s1 s2,
        String c s = (s1 ++ s2)%string /\
        all_chars (cls_match dotall k) s1 = true /\
        (lo <= n + String.length s1)%nat /\
        (forall h, hi = Some h -> s1 = EmptyString \/ (n + String.length s1 <= h)%nat) /\
        cont s2 (pos + String.length s1)%nat = Some r).
    { destruct (cls_match dotall k c) eqn:Hc; [|discriminate].
      destruct (below hi n) eqn:Hb; [|discriminate]. simpl.
      intros H. apply IH in H as (s1 & s2 & -> & Hall & Hlo & Hhi & Hk).
      exists (String c s1), s2. simpl. rewrite Hc, Hall.
      repeat split.
      - lia.
      - intros h Hh. right. destruct (Hhi h Hh) as [->|]; [|lia].
        subst hi. simpl in Hb. apply Nat.ltb_lt in Hb. simpl. lia.
      - now replace (pos + S (String.length s1))%nat
          with (S pos + String.length s1)%nat by lia. }
    destruct greedy; cbn [rep]; intros H;
      apply or_else_some in H as [H|[_ H]];
      solve [now apply Hstop | now apply Hmore].
Qed.

(** Whatever [match_here] finds is a match in the declarative sense. *)
Lemma match_here_sound (items : pattern) :
  forall (s : string) (pos : nat) (st : caps) (e : nat) (st' : caps),
    match_here dotall items s pos st = Some (e, st') ->
    exists c r,
      s = (c ++ r)%string /\
      e = (pos + String.length c)%nat /\
      matches dotall items c pos st st'.
Proof.
  induction items as [|it rest IH]; intros s pos st e st'.
  - simpl. intros [= <- <-]. exists EmptyString, s. simpl.
    rewrite Nat.add_0_r. repeat split. constructor.
  - destruct it as [k lo hi greedy|g|g]; cbn [match_here].
    + intros H. apply rep_sound in H as (c1 & s2 & -> & Hall & Hlo & Hhi & Hk).
      apply IH in Hk as (c2 & r & -> & -> & Hm).
      exists (c1 ++ c2)%string, r. rewrite StrFacts.app_assoc, StrFacts.length_app.
      repeat split; [lia|].
      constructor; try assumption.
      intros h Hh. destruct (Hhi h Hh) as [->|]; simpl; lia.
    + intros H. apply IH in H as (c & r & -> & -> & Hm).
      exists c, r. repeat split. now constructor.
    + intros H. apply IH in H as (c & r & -> & -> & Hm).
      exists c, r. repeat split. now constructor.
Qed.

(** [search] returns the match that starts leftmost. *)
Lemma search_from_sound (items : pattern) :
  forall (s : string) (pos : nat) (m : match_obj),
    search_from dotall items s pos = Some m ->
    exists pre suf,
      s = (pre ++ suf)%string /\
      m_start m = (pos + String.length pre)%nat /\
      match_here dotall items suf (m_start m) no_caps = Some (m_end m, m_caps m) /\
      no_match_in dotall items pre suf pos.
Proof.
  induction s as [|c s IH]; intros pos m; cbn [search_from].
  - destruct (match_here dotall items "" pos no_caps) as [[e st]|] eqn:Hm;
      [|discriminate].
    intros [= <-]. exists EmptyString, EmptyString. simpl.
    rewrite Nat.add_0_r. auto.
  - destruct (match_here dotall items (String c s) pos no_caps) as [[e st]|] eqn:Hm.
    + intros [= <-]. exists EmptyString, (String c s). simpl.
      rewrite Nat.add_0_r. auto.
    + intros H. apply IH in H as (pre & suf & -> & Hstart & Hhere & Hno).
      exists (String c pre), suf. simpl. repeat split; [lia | assumption | | assumption].
      exact Hm.
Qed.

(** *** Reading a match backwards *)

Lemma matches_nil_inv c pos st st' :
  matches dotall [] c pos st st' -> c = EmptyString /\ st' = st.
Proof. inversion 1; auto. Qed.

Lemma matches_open_inv g rest c pos st st' :
  matches dotall (Open g :: rest) c pos st st' ->
  matches dotall rest c pos (open_group g pos st) st'.
Proof. inversion 1; auto. Qed.

Lemma matches_close_inv g rest c pos st st' :
  matches dotall (Close g :: rest) c pos st st' ->
  matches dotall rest c pos (close_group g pos st) st'.
Proof. inversion 1; auto. Qed.

Lemma matches_rep_inv k lo hi greedy rest c pos st st' :
  matches dotall (Rep k lo hi greedy :: rest) c pos st st' ->
  exists c1 c2,
    c = (c1 ++ c2)%string /\
    all_chars (cls_match dotall k) c1 = true /\
    (lo <= String.length c1)%nat /\
    (forall h, hi = Some h -> (String.length c1 <= h)%nat) /\
    matches dotall rest c2 (pos + String.length c1) st st'.
Proof. inversion 1; subst; eauto 10. Qed.

Lemma matches_lits_inv (w : string) :
  forall rest c pos st st',
    matches dotall (lits w ++ rest) c pos st st' ->
    exists c',
      c = (w ++ c')%string /\
      matches dotall rest c' (pos + String.length w) st st'.
Proof.
  induction w as [|a w IH]; intros rest c pos st st'; simpl.
  - intros H. exists c. now rewrite Nat.add_0_r.
  - intros H. apply matches_rep_inv in H as (c1 & c2 & -> & Hall & Hlo & Hhi & Hm).
    specialize (Hhi 1%nat eq_refl).
    destruct c1 as [|x [|y c1]]; simpl in Hlo, Hhi; try lia.
    simpl in Hall. rewrite andb_true_r in Hall.
    apply Ascii.eqb_eq in Hall. subst x.
    apply IH in Hm as (c' & -> & Hm).
    exists c'. split; [reflexivity|].
    now replace (pos + S (String.length w))%nat
      with (pos + String.length (String a "") + String.length w)%nat by (simpl; lia).
Qed.

(** *** Completeness: a match that exists is not missed *)

Lemma or_else_not_none {A} (a : option A) (b : unit -> option A) :
  a <> None \/ b tt <> None -> or_else a b <> None.
Proof. destruct a; simpl; [intros _; discriminate | intros [H|H]; congruence]. Qed.

Lemma rep_complete (k : cls) (lo : nat) (hi : option nat) (greedy : bool)
    (cont : string -> nat -> option (nat * caps)) :
  forall (c1 c2 : string) (n pos : nat),
    all_chars (cls_match dotall k) c1 = true ->
    (lo <= n + String.length c1)%nat ->
    (forall h, hi = Some h -> (n + String.length c1 <= h)%nat) ->
    cont c2 (pos + String.length c1)%nat <> None ->
    rep dotall k lo hi greedy cont (c1 ++ c2) n pos <> None.
Proof.
  induction c1 as [|c c1 IH]; intros c2 n pos Hall Hlo Hhi Hk.
  - simpl in Hlo, Hk. rewrite Nat.add_0_r in Hlo, Hk.
    apply Nat.leb_le in Hlo.
    cbn [append]. destruct c2 as [|d c2]; cbn [rep]; rewrite Hlo;
      destruct greedy; apply or_else_not_none; auto.
  - simpl in Hall. apply andb_true_iff in Hall as [Hc Hall].
    assert (Hb : below hi n = true).
    { destruct hi as [h|]; [|reflexivity]. simpl. apply Nat.ltb_lt.
      specialize (Hhi h eq_refl). simpl in Hhi. lia. }
    assert (Hmore : rep dotall k lo hi greedy cont (c1 ++ c2) (S n) (S pos) <> None).
    { apply IH; try assumption.
      - simpl in Hlo. lia.
      - intros h Hh. specialize (Hhi h Hh). simpl in Hhi. lia.
      - simpl in Hk. now replace (S pos + String.length c1)%nat
          with (pos + S (String.length c1))%nat by lia. }
    cbn [append rep]. rewrite Hc, Hb. cbn [andb].
    destruct greedy; apply or_else_not_none; auto.
Qed.

Lemma match_here_complete (items : pattern) (c : string) (pos : nat) (st st' : caps) :
  matches dotall items c pos st st' ->
  forall r, match_here dotall items (c ++ r) pos st <> None.
Proof.
  induction 1 as [pos st|g rest c pos st st' _ IH|g rest c pos st st' _ IH
                 |k lo hi greedy rest c1 c2 pos st st' Hall Hlo Hhi _ IH]; intros r.
  - discriminate.
  - apply IH.
  - apply IH.
  - cbn [match_here]. rewrite StrFacts.app_assoc.
    apply rep_complete; try assumption; simpl; auto.
Qed.

Lemma search_from_none (items : pattern) :
  forall (s : string) (pos : nat),
    search_from dotall items s pos = None ->
    forall pre suf,
      s = (pre ++ suf)%string ->
      match_here dotall items suf (pos + String.length pre) no_caps = None.
Proof.
  induction s as [|c s IH]; intros pos; cbn [search_from].
  - destruct (match_here dotall items "" pos no_caps) as [[e st]|] eqn:Hm;
      [discriminate|].
    intros _ [|x pre] suf; simpl; [|discriminate].
    intros <-. now rewrite Nat.add_0_r.
  - destruct (match_here dotall items (String c s) pos no_caps) as [[e st]|] eqn:Hm;
      [discriminate|].
    intros H [|x pre] suf; simpl.
    + intros <-. now rewrite Nat.add_0_r.
    + intros [= <- ->]. rewrite <- Nat.add_succ_comm. now apply IH.
Qed.

(** When [search] finds nothing, no part of the subject matches. *)
Lemma search_none_no_match (items : pattern) (subject : string) :
  search dotall items subject = None ->
  forall pre c post st',
    subject = (pre ++ c ++ post)%string ->
    ~ matches dotall items c (String.length pre) no_caps st'.
Proof.
  intros Hs pre c post st' Hsub Hm.
  apply (match_here_complete _ _ _ _ _ Hm post).
  now apply (search_from_none items subject 0 Hs pre).
Qed.

End Sound.

End ReFacts.

(** ** Number parsing *)

Module NumFacts.

Import StrFacts.

Lemma digit_cases (c : ascii) :
  Str.is_digit c = true ->
  Str.is_space c = false /\
  Ascii.eqb c "," = false /\ Ascii.eqb c "-" = false /\ Ascii.eqb c "+" = false.
Proof.
  destruct c as [[] [] [] [] [] [] [] []]; vm_compute; intros H;
    try discriminate H; repeat split.
Qed.

Lemma digits_not_space (s : string) :
  is_digits s = true -> all_chars (fun c => negb (Str.is_space c)) s = true.
Proof.
  apply all_chars_impl. intros c Hc.
  destruct (digit_cases c Hc) as (-> & _). reflexivity.
Qed.

Lemma span_digits_app (d r : string) :
  is_digits d = true -> starts_with Str.is_digit r = false ->
  span_digits (d ++ r) = (d, r).
Proof.
  intros Hd Hr. induction d as [|c d IH]; simpl in *.
  - destruct r as [|x r]; simpl in *; [reflexivity | now rewrite Hr].
  - apply andb_true_iff in Hd as [Hc Hd]. now rewrite Hc, (IH Hd).
Qed.

Lemma span_digits_all (d : string) :
  is_digits d = true -> span_digits d = (d, EmptyString).
Proof.
  intros Hd. rewrite <- (app_nil_r d) at 1. now apply span_digits_app.
Qed.

Lemma split_sign_digit (c : ascii) (s : string) :
  Str.is_digit c = true -> split_sign (String c s) = (1, String c s).
Proof.
  intros Hc. destruct (digit_cases c Hc) as (_ & _ & Hm & Hp).
  unfold split_sign.
  destruct c as [[] [] [] [] [] [] [] []]; try reflexivity; discriminate.
Qed.

(** What [int] does with a non-empty string of digits: its value up to
    the cap on the number of digits, [ValueError] above it. *)
Lemma py_int_digits (d : string) :
  is_digits d = true -> d <> EmptyString ->
  py_int d
  = if (int_max_str_digits <? String.length d)%nat
    then Raise (ValueError int_limit_message)
    else Ok (digits_value 0 d).
Proof.
  intros Hd Hne. unfold py_int, Str.strip.
  rewrite strip_by_none by now apply digits_not_space.
  destruct d as [|c d]; [congruence|].
  pose proof Hd as Hd'. simpl in Hd'. apply andb_true_iff in Hd' as [Hc _].
  rewrite (split_sign_digit c d Hc), (span_digits_all _ Hd).
  destruct (int_max_str_digits <? String.length (String c d))%nat; [reflexivity|].
  now rewrite Z.mul_1_l.
Qed.

(** [float] accepts digits, a point and digits. *)
Lemma py_float_decimal (ip fp : string) :
  is_digits ip = true -> ip <> EmptyString ->
  is_digits fp = true -> fp <> EmptyString ->
  py_float (ip ++ "." ++ fp) = Ok (decimal_value ip fp).
Proof.
  intros Hi Hine Hf Hfne. unfold py_float, Str.strip.
  rewrite strip_by_none.
  2:{ rewrite !all_chars_app, (digits_not_space _ Hi), (digits_not_space _ Hf).
      reflexivity. }
  destruct ip as [|c ip]; [congruence|].
  pose proof Hi as Hi'. simpl in Hi'. apply andb_true_iff in Hi' as [Hc _].
  cbn [append]. rewrite (split_sign_digit c _ Hc).
  change (String c (ip ++ String "." fp)) with (String c ip ++ String "." fp)%string.
  rewrite (span_digits_app _ _ Hi) by reflexivity.
  rewrite (span_digits_all _ Hf).
  destruct fp as [|x fp]; [congruence|].
  unfold decimal_value. rewrite Z.mul_1_l.
  destruct (String c ip ++ String x fp)%string eqn:E; [discriminate E | reflexivity].
Qed.

(** Removing the thousands separator. *)
Lemma partition_comma_digits (d : string) :
  is_digits d = true -> Str.partition "," d = None.
Proof.
  intros Hd. apply partition_none; [|reflexivity].
  apply (no_start_class (fun c => negb (Ascii.eqb c ","))); [reflexivity | discriminate |].
  revert Hd. apply all_chars_impl. intros c Hc.
  destruct (digit_cases c Hc) as (_ & -> & _). reflexivity.
Qed.

Lemma replace_comma (a cm b : string) :
  is_digits a = true -> is_digits b = true ->
  cm = EmptyString \/ cm = "," ->
  Str.replace "," "" (a ++ cm ++ b) = (a ++ b)%string.
Proof.
  intros Ha Hb [->| ->]; unfold Str.replace.
  - simpl. rewrite split_none; [reflexivity|].
    apply partition_comma_digits. unfold is_digits in *.
    now rewrite all_chars_app, Ha, Hb.
  - rewrite (split_cons "," _ a b); [| discriminate |].
    + rewrite split_none by now apply partition_comma_digits. reflexivity.
    + apply partition_first.
      apply (no_start_class (fun c => negb (Ascii.eqb c ","))); [reflexivity | discriminate |].
      revert Ha. apply all_chars_impl. intros c Hc.
      destruct (digit_cases c Hc) as (_ & -> & _). reflexivity.
Qed.

End NumFacts.

(** ** Rating extraction *)

Section RatingExtraction.

Import StrFacts ReFacts NumFacts.

(** What a match of the rating pattern looks like, and where its two
    groups lie. *)
Lemma rating_shape (c : string) (p : nat) (st' : Re.caps) :
  matches true rating_pattern c p Re.no_caps st' ->
  exists ip fp mid a cm b,
    c = (ip ++ "." ++ fp ++ " avg rating" ++ mid ++ a ++ cm ++ b ++ " ratings")%string /\
    (is_digits ip = true /\ ip <> EmptyString) /\
    (is_digits fp = true /\ fp <> EmptyString) /\
    (is_digits a = true /\ a <> EmptyString) /\
    (cm = EmptyString \/ cm = ",") /\
    is_digits b = true /\
    Re.assoc 1 (Re.spans st')
      = Some (p, p + String.length (ip ++ "." ++ fp))%nat /\
    Re.assoc 2 (Re.spans st')
      = Some (p + String.length (ip ++ "." ++ fp ++ " avg rating" ++ mid),
              p + String.length (ip ++ "." ++ fp ++ " avg rating" ++ mid)
              + String.length (a ++ cm ++ b))%nat.
Proof.
  unfold rating_pattern, Re.plus, Re.star, Re.lazy_star, Re.opt. cbn [app]. intros H.
  apply matches_open_inv in H.
  apply matches_rep_inv in H as (ip & c1 & -> & Hip & Hiplo & _ & H).
  apply matches_lits_inv in H as (c2 & -> & H).
  apply matches_rep_inv in H as (fp & c3 & -> & Hfp & Hfplo & _ & H).
  apply matches_close_inv in H.
  apply matches_lits_inv in H as (c4 & -> & H).
  apply matches_rep_inv in H as (mid & c5 & -> & _ & _ & _ & H).
  apply matches_open_inv in H.
  apply matches_rep_inv in H as (a & c6 & -> & Ha & Halo & _ & H).
  apply matches_rep_inv in H as (cm & c7 & -> & Hcm & _ & Hcmhi & H).
  apply matches_rep_inv in H as (b & c8 & -> & Hb & _ & _ & H).
  apply matches_close_inv in H.
  rewrite <- (List.app_nil_r (Re.lits " ratings")) in H.
  apply matches_lits_inv in H as (c9 & -> & H).
  apply matches_nil_inv in H as (-> & ->).
  exists ip, fp, mid, a, cm, b.
  assert (Hne : forall s, (1 <= String.length s)%nat -> s <> EmptyString).
  { intros [|x s]; simpl; [lia | discriminate]. }
  split; [reflexivity|].
  split; [split; [exact Hip | now apply Hne]|].
  split; [split; [exact Hfp | now apply Hne]|].
  split; [split; [exact Ha | now apply Hne]|].
  split.
  { specialize (Hcmhi 1%nat eq_refl).
    destruct cm as [|x [|y cm]]; simpl in Hcmhi; [now left | right | lia].
    simpl in Hcm. rewrite andb_true_r in Hcm. apply Ascii.eqb_eq in Hcm. now subst x. }
  split; [exact Hb|].
  cbn. split; do 2 f_equal;
    repeat (rewrite length_app; cbn [String.length]); lia.
Qed.

(** [substring] recovers the middle of a concatenation. *)
Lemma substring_middle (pre x post : string) :
  substring (String.length pre) (String.length x) (pre ++ x ++ post) = x.
Proof.
  induction pre as [|c pre IH]; simpl; [|exact IH].
  induction x as [|d x IHx]; simpl.
  - now destruct post.
  - now rewrite IHx.
Qed.

Lemma group_at (page : string) (m : Re.match_obj) (g : nat) (pre x post : string) :
  Re.assoc g (Re.spans (Re.m_caps m))
    = Some (String.length pre, String.length pre + String.length x)%nat ->
  page = (pre ++ x ++ post)%string ->
  Re.group page m g = Some x.
Proof.
  intros Hg ->. unfold Re.group. rewrite Hg.
  replace (String.length pre + String.length x - String.length pre)%nat
    with (String.length x) by lia.
  now rewrite substring_middle.
Qed.

End RatingExtraction.

(** What lines 184-190 compute.  The page [4.25 avg rating — 1,234 ratings]
    gives the rating 4.25 and the count 1234; the lazy wildcard crosses a
    line break and stops at the first count that fits.  For every page:
    if the search finds nothing, no part of the page matches the pattern,
    both values are [None] and nothing is raised; otherwise the match is
    the leftmost one, its first group is [digits.digits] and is returned
    as the rating, its second group is digits with at most one comma and
    is handed, comma removed, to [int]: the count is returned when it
    has at most 4300 digits, and [int] raises [ValueError] when it has
    more. *)
Lemma rating_extraction :
  extract_rating "4.25 avg rating — 1,234 ratings" = Ok (VFloat (17 # 4), VInt 1234)
  /\
  extract_rating ("3.5 avg rating" ++ NL ++ "12 ratings and 99 ratings")
    = Ok (VFloat (7 # 2), VInt 12)
  /\
  forall page : string,
    match Re.search true rating_pattern page with
    | None =>
        extract_rating page = Ok (VNone, VNone) /\
        forall pre c post st',
          page = (pre ++ c ++ post)%string ->
          ~ matches true rating_pattern c (String.length pre) Re.no_caps st'
    | Some m =>
        exists pre ip fp mid a cm b post,
          page = (pre ++ ip ++ "." ++ fp ++ " avg rating" ++ mid
                  ++ a ++ cm ++ b ++ " ratings" ++ post)%string /\
          Re.m_start m = String.length pre /\
          no_match_in true rating_pattern pre
            (ip ++ "." ++ fp ++ " avg rating" ++ mid
             ++ a ++ cm ++ b ++ " ratings" ++ post) 0 /\
          (is_digits ip = true /\ ip <> EmptyString) /\
          (is_digits fp = true /\ fp <> EmptyString) /\
          (is_digits a = true /\ a <> EmptyString) /\
          (cm = EmptyString \/ cm = ",") /\
          is_digits b = true /\
          Re.group page m 1 = Some (ip ++ "." ++ fp)%string /\
          Re.group page m 2 = Some (a ++ cm ++ b)%string /\
          count_digits page = String.length (a ++ b) /\
          extract_rating page
            = if (int_max_str_digits <? String.length (a ++ b))%nat
              then Raise (ValueError int_limit_message)
              else Ok (VFloat (decimal_value ip fp),
                       VInt (digits_value 0 (a ++ b)))
    end.
Proof.
  split; [vm_compute; reflexivity|].
  split; [vm_compute; reflexivity|].
  intros page.
  destruct (Re.search true rating_pattern page) as [m|] eqn:Hsearch.
  2:{ split; [unfold extract_rating; now rewrite Hsearch|].
      now apply ReFacts.search_none_no_match. }
  pose proof Hsearch as Hs. unfold Re.search in Hs.
  apply ReFacts.search_from_sound in Hs as (pre & suf & Hpage & Hstart & Hhere & Hleft).
  simpl in Hstart.
  apply ReFacts.match_here_sound in Hhere as (c & post & -> & _ & Hm).
  apply rating_shape in Hm
    as (ip & fp & mid & a & cm & b & -> & Hip & Hfp & Ha & Hcm & Hb & Hg1 & Hg2).
  rewrite !StrFacts.app_assoc in Hpage, Hleft.
  rewrite Hstart in Hg1, Hg2.
  assert (G1 : Re.group page m 1 = Some (ip ++ "." ++ fp)%string).
  { apply (group_at page m 1 pre _
             (" avg rating" ++ mid ++ a ++ cm ++ b ++ " ratings" ++ post));
      [exact Hg1|].
    rewrite Hpage, !StrFacts.app_assoc. reflexivity. }
  assert (G2 : Re.group page m 2 = Some (a ++ cm ++ b)%string).
  { apply (group_at page m 2 (pre ++ ip ++ "." ++ fp ++ " avg rating" ++ mid) _
             (" ratings" ++ post)).
    - rewrite Hg2. rewrite (StrFacts.length_app pre). f_equal.
    - rewrite Hpage, !StrFacts.app_assoc. reflexivity. }
  exists pre, ip, fp, mid, a, cm, b, post.
  repeat (split; [assumption|]).
  destruct Hip as [Hip Hipne], Hfp as [Hfp Hfpne], Ha as [Ha Hane].
  split.
  { unfold count_digits. rewrite Hsearch, G2.
    now rewrite NumFacts.replace_comma by assumption. }
  unfold extract_rating, group_str. rewrite Hsearch, G1, G2. cbn [bind].
  rewrite NumFacts.py_float_decimal by assumption. cbn [bind].
  rewrite NumFacts.replace_comma by assumption.
  rewrite NumFacts.py_int_digits.
  - now destruct (int_max_str_digits <? String.length (a ++ b))%nat.
  - unfold is_digits in *. rewrite StrFacts.all_chars_app. now rewrite Ha, Hb.
  - destruct a; [congruence | discriminate].
Qed.

(** Extraction raises in one case only: a count of more digits than
    [int] converts. *)
Lemma extract_rating_cases (page : string) :
  if (int_max_str_digits <? count_digits page)%nat
  then extract_rating page = Raise (ValueError int_limit_message)
  else exists rating num_ratings, extract_rating page = Ok (rating, num_ratings).
Proof.
  destruct rating_extraction as (_ & _ & H). specialize (H page).
  destruct (Re.search true rating_pattern page) as [m|] eqn:Hsearch.
  - destruct H as (pre & ip & fp & mid & a & cm & b & post & H).
    decompose [and] H. clear H.
    match goal with Hc : count_digits page = _ |- _ => rewrite Hc end.
    match goal with He : extract_rating page = _ |- _ => rewrite He end.
    destruct (int_max_str_digits <? String.length (a ++ b))%nat; eauto.
  - destruct H as [H _]. unfold count_digits. rewrite Hsearch.
    change (int_max_str_digits <? 0)%nat with false. cbv iota. eauto.
Qed.

(** C3.  The count is not the comma-stripped integer of the page when
    that integer has more than one thousands separator: the second group
    admits a single comma, so for [1,234,567 ratings] the wildcard
    swallows the leading [1,] and the count returned is 234567, whereas
    stripping the separators of [1,234,567] gives 1234567. *)
Theorem rating_count_drops_millions :
  py_int (Str.replace "," "" "1,234,567") = Ok 1234567 /\
  extract_rating "4.25 avg rating — 1,234,567 ratings"
    = Ok (VFloat (17 # 4), VInt 234567).
Proof. split; vm_compute; reflexivity. Qed.

(** ** The fetcher *)

Section MakeRequest.

Variable net : network.
Variable url : string.
Variable max_retries : Z.



(** The loop started at attempt [s] with [n] attempts left sends
    [j + 1 <= n] requests: [j] failures with their waits, then one
    request that either succeeds or is the failure of the last attempt. *)
Lemma make_request_loop_shape (n s : nat) :
  Z.of_nat (s + n) = max_retries -> (0 < n)%nat ->
  exists j : nat,
    (j < n)%nat /\
    snd (make_request_loop net url max_retries (map Z.of_nat (seq s n)))
      = backoff url (map Z.of_nat (seq s j)) ++ [EvGet url] /\
    (forall i, (i < j)%nat -> attempt_fails net url (Z.of_nat (s + i))) /\
    ((fst (make_request_loop net url max_retries (map Z.of_nat (seq s n))) = None
      /\ S j = n /\ attempt_fails net url (Z.of_nat (s + j)))
     \/ exists r,
          fst (make_request_loop net url max_retries (map Z.of_nat (seq s n))) = Some r
          /\ try_get net url (Z.of_nat (s + j)) = Ok r).
Proof.
  revert s. induction n as [|n IH]; intros s Hmax Hpos; [lia|].
  cbn [seq map make_request_loop].
  destruct (try_get net url (Z.of_nat s)) as [r|e] eqn:Hget.
  - exists 0%nat. rewrite Nat.add_0_r. cbn.
    repeat split; [lia | intros i Hi; lia | right; eauto].
  - destruct (Z.eqb_spec (Z.of_nat s) (max_retries - 1)) as [Hlast|Hmore].
    + exists 0%nat. rewrite Nat.add_0_r. cbn.
      repeat split; [lia | intros i Hi; lia |].
      left. repeat split; [lia | now exists e].
    + destruct (IH (S s)) as (j & Hj & Htr & Hfail & Hres); [lia | lia |].
      destruct (make_request_loop net url max_retries (map Z.of_nat (seq (S s) n)))
        as [r tr] eqn:Hloop.
      cbn [fst snd] in *.
      exists (S j). repeat split.
      * lia.
      * cbn. now rewrite Htr.
      * intros [|i] Hi.
        -- rewrite Nat.add_0_r. now exists e.
        -- replace (s + S i)%nat with (S s + i)%nat by lia. apply Hfail. lia.
      * replace (s + S j)%nat with (S s + j)%nat by lia.
        destruct Hres as [(Hr & Hjn & Hf)|(r' & Hr & Hok)].
        -- left. repeat split; [assumption | lia | assumption].
        -- right. eauto.
Qed.

(** When every attempt fails the caller gets [None]. *)
Lemma make_request_exhausted :
  0 < max_retries ->
  (forall a, 0 <= a < max_retries -> attempt_fails net url a) ->
  fst (make_request net url max_retries) = None.
Proof.
  intros Hpos Hall. unfold make_request, range.
  destruct (make_request_loop_shape (Z.to_nat max_retries) 0)
    as (j & Hj & _ & _ & [(Hr & _)|(r & _ & Hok)]); [lia | lia | exact Hr |].
  destruct (Hall (Z.of_nat (0 + j))) as (e & He); [lia | congruence].
Qed.

End MakeRequest.



(** ** The row enricher *)

(** With [max_retries <= 0] the loop body never runs: no request is
    sent, nothing is waited for, and the caller gets [None]. *)
Lemma make_request_no_attempt (net : network) (url : string) (max_retries : Z) :
  max_retries <= 0 -> make_request net url max_retries = (None, []).
Proof.
  intros Hmax. unfold make_request, range.
  now replace (Z.to_nat max_retries) with 0%nat by lia.
Qed.

Lemma try_get_ok (net : network) (url : string) (attempt : Z) (r : Response) :
  try_get net url attempt = Ok r -> response_ok r = true.
Proof.
  unfold try_get, response_ok.
  destruct (net url (Z.to_nat attempt)) as [r'|msg]; [|discriminate].
  destruct (raise_for_status r') eqn:Hs; cbn [bind]; [|discriminate].
  intros [= <-]. now rewrite Hs.
Qed.

(** A response that [make_request] returns has passed
    [raise_for_status]. *)
Lemma make_request_some_ok (net : network) (url : string) (max_retries : Z)
    (r : Response) :
  fst (make_request net url max_retries) = Some r -> response_ok r = true.
Proof.
  intros Hr. destruct (Z.le_gt_cases max_retries 0) as [Hle|Hpos].
  - rewrite make_request_no_attempt in Hr by assumption. discriminate.
  - unfold make_request, range in Hr.
    destruct (make_request_loop_shape net url max_retries (Z.to_nat max_retries) 0)
      as (j & _ & _ & _ & [(Hnone & _)|(r' & Hsome & Hget)]); [lia | lia | congruence |].
    rewrite Hsome in Hr. injection Hr as <-. now apply try_get_ok in Hget.
Qed.

(** What [scrape_book_data] does with a row of at least two fields, by
    what was fetched: without a response the row and two [None]; with a
    response the row and what the extraction found, or the [ValueError]
    of [int] when the count found has more digits than [int] converts. *)
Lemma scrape_book_data_cases (net : network) (title author : string)
    (rest : list string) :
  match fetched net title author with
  | None =>
      scrape_book_data net (title :: author :: rest)
      = Ok (map VStr (title :: author :: rest) ++ [VNone; VNone])
  | Some r =>
      if (int_max_str_digits <? count_digits (text r))%nat
      then scrape_book_data net (title :: author :: rest)
           = Raise (ValueError int_limit_message)
      else exists rating num_ratings,
             scrape_book_data net (title :: author :: rest)
             = Ok (map VStr (title :: author :: rest) ++ [rating; num_ratings])
  end.
Proof.
  unfold scrape_book_data, fetched. cbn [unpack_title_author bind].
  destruct (fst (make_request net (search_url title author) default_max_retries))
    as [r|] eqn:Hf; [|reflexivity].
  cbn [truthy]. rewrite (make_request_some_ok _ _ _ _ Hf). cbn [negb].
  pose proof (extract_rating_cases (text r)) as H.
  destruct (int_max_str_digits <? count_digits (text r))%nat.
  - now rewrite H.
  - destruct H as (x & y & ->). cbn [bind]. eauto.
Qed.

(** C2, as stated, fails: a row of two fields whose page is fetched at
    the first attempt and shows a count of 4301 digits.  The pattern
    matches, [int] refuses the count, and [scrape_book_data] raises
    [ValueError] instead of returning the row with two cells. *)
Theorem scrape_book_data_long_count_raises :
  (2 <= length ["Dune"; "Frank Herbert"])%nat /\
  fetched (net_page long_count_page) "Dune" "Frank Herbert"
    = Some (mkResponse 200 long_count_page) /\
  scrape_book_data (net_page long_count_page) ["Dune"; "Frank Herbert"]
    = Raise (ValueError int_limit_message).
Proof.
  split; [simpl; lia|]. split; vm_compute; reflexivity.
Qed.

(** C2, amended.  For a row with a title, an author and any further
    fields: when no page is fetched, or the count found in the fetched
    page has at most 4300 digits, [scrape_book_data] raises nothing and
    returns the row followed by exactly two cells; whatever it returns
    is the row followed by two cells; when [make_request] returns
    [None], and so when all five attempts fail, the two cells are
    [None]; and the one exception it can raise is the [ValueError] of
    [int] on a fetched page whose count has more than 4300 digits. *)
Theorem scrape_book_data_appends_two (net : network) (row : list string) :
  (2 <= length row)%nat ->
  ((forall title author rest,
      row = title :: author :: rest -> count_fits (fetched net title author)) ->
   exists rating num_ratings,
     scrape_book_data net row = Ok (map VStr row ++ [rating; num_ratings])) /\
  (forall data, scrape_book_data net row = Ok data ->
     exists rating num_ratings, data = map VStr row ++ [rating; num_ratings]) /\
  (forall title author rest,
     row = title :: author :: rest ->
     fetched net title author = None
     \/ (forall a, 0 <= a < default_max_retries ->
                   attempt_fails net (search_url title author) a) ->
     scrape_book_data net row = Ok (map VStr row ++ [VNone; VNone])) /\
  (forall e, scrape_book_data net row = Raise e ->
     e = ValueError int_limit_message /\
     exists title author rest r,
       row = title :: author :: rest /\
       fetched net title author = Some r /\
       (int_max_str_digits < count_digits (text r))%nat).
Proof.
  intros Hlen.
  destruct row as [|title [|author rest]]; simpl in Hlen; try lia.
  pose proof (scrape_book_data_cases net title author rest) as Hcases.
  split; [|split; [|split]].
  - intros Hfits. specialize (Hfits title author rest eq_refl).
    destruct (fetched net title author) as [r|]; [|eauto].
    cbn [count_fits] in Hfits. apply Nat.ltb_ge in Hfits.
    now rewrite Hfits in Hcases.
  - intros data Hdata.
    destruct (fetched net title author) as [r|].
    + destruct (int_max_str_digits <? count_digits (text r))%nat.
      * congruence.
      * destruct Hcases as (x & y & Hxy). exists x, y. congruence.
    + exists VNone, VNone. congruence.
  - intros t a r [= <- <- <-] Hfail.
    assert (Hnone : fetched net title author = None).
    { destruct Hfail as [H|H]; [exact H|].
      apply make_request_exhausted; [reflexivity | exact H]. }
    now rewrite Hnone in Hcases.
  - intros e He.
    destruct (fetched net title author) as [r|] eqn:Hf; [|congruence].
    destruct (int_max_str_digits <? count_digits (text r))%nat eqn:Hcap.
    + split; [congruence|].
      exists title, author, rest, r. apply Nat.ltb_lt in Hcap. auto.
    + destruct Hcases as (x & y & Hxy). congruence.
Qed.

Lemma scrape_book_data_appends_two_witness :
  exists rating num_ratings,
    scrape_book_data (net_page "4.25 avg rating, 1,234 ratings")
      ["Dune"; "Frank Herbert"]
    = Ok ([VStr "Dune"; VStr "Frank Herbert"] ++ [rating; num_ratings]).
Proof.
  refine (proj1 (scrape_book_data_appends_two
                   (net_page "4.25 avg rating, 1,234 ratings")
                   ["Dune"; "Frank Herbert"] _) _).
  - simpl; lia.
  - intros title author rest [= <- <- <-].
    apply Nat.leb_le. vm_compute. reflexivity.
Defined.

(** ** The verifier *)

Module VerifyFacts.

Import StrFacts.

(** *** The test for a confirming reply *)

Lemma lower_app (a b : string) :
  Str.lower (a ++ b) = (Str.lower a ++ Str.lower b)%string.
Proof. induction a as [|c a IH]; simpl; congruence. Qed.

Lemma is_space_lower_char (c : ascii) :
  Str.is_space (Str.lower_char c) = Str.is_space c.
Proof. destruct c as [[] [] [] [] [] [] [] []]; reflexivity. Qed.

Lemma all_space_lower (s : string) :
  all_chars Str.is_space (Str.lower s) = all_chars Str.is_space s.
Proof.
  induction s as [|c s IH]; simpl; [reflexivity|].
  now rewrite is_space_lower_char, IH.
Qed.

Lemma lstrip_by_app_all (p : ascii -> bool) (ws s : string) :
  all_chars p ws = true -> Str.lstrip_by p (ws ++ s) = Str.lstrip_by p s.
Proof.
  induction ws as [|c ws IH]; simpl; [reflexivity|].
  rewrite andb_true_iff. intros [-> Hws]. auto.
Qed.

Lemma rstrip_by_all (p : ascii -> bool) (ws : string) :
  all_chars p ws = true -> Str.rstrip_by p ws = EmptyString.
Proof.
  induction ws as [|c ws IH]; simpl; [reflexivity|].
  rewrite andb_true_iff. intros [-> Hws]. now rewrite IH.
Qed.

Lemma rstrip_by_app_all (p : ascii -> bool) (s ws : string) :
  all_chars p ws = true -> Str.rstrip_by p (s ++ ws) = Str.rstrip_by p s.
Proof.
  intros Hws. induction s as [|c s IH]; simpl.
  - now apply rstrip_by_all.
  - now rewrite IH.
Qed.

(** Surrounding whitespace and letter case do not matter. *)
Lemma is_correct_padded (ws1 w ws2 : string) :
  all_chars Str.is_space ws1 = true ->
  all_chars Str.is_space ws2 = true ->
  Str.lower w = "correct" ->
  is_correct (ws1 ++ w ++ ws2) = true.
Proof.
  intros H1 H2 Hw. unfold is_correct, Str.strip, Str.strip_by.
  rewrite !lower_app, Hw.
  rewrite lstrip_by_app_all by now rewrite all_space_lower.
  change (Str.lstrip_by Str.is_space ("correct" ++ Str.lower ws2))
    with ("correct" ++ Str.lower ws2)%string.
  rewrite rstrip_by_app_all by now rewrite all_space_lower.
  reflexivity.
Qed.

(** A reply that begins with a letter other than [c] is not a
    confirmation. *)
Lemma is_correct_first (c : ascii) (s : string) :
  Str.is_space (Str.lower_char c) = false ->
  Ascii.eqb (Str.lower_char c) "c" = false ->
  is_correct (String c s) = false.
Proof.
  intros Hsp Hc. unfold is_correct, Str.strip, Str.strip_by. simpl.
  rewrite Hsp. simpl. rewrite Hsp.
  destruct (Str.rstrip_by Str.is_space (Str.lower s)); simpl; now rewrite Hc.
Qed.

(** *** Occurrences of a separator in a text put between quotes *)

Lemma no_start_app (sep x y rest : string) :
  no_start sep x (y ++ rest) -> no_start sep y rest ->
  no_start sep (x ++ y) rest.
Proof.
  intros Hx Hy. induction x as [|c x IH]; simpl in *; [exact Hy|].
  destruct Hx as [Hd Hx]. rewrite app_assoc. split; [exact Hd | now apply IH].
Qed.

(** A character foreign to [sep] stops every occurrence of [sep] that
    has begun before it. *)
Lemma drop_prefix_foreign (c : ascii) (R : string) :
  forall sep x,
    Str.mem_char c sep = false ->
    Str.drop_prefix sep x = None ->
    Str.drop_prefix sep (x ++ String c R) = None.
Proof.
  induction sep as [|a sep IH]; intros x Hc Hd; simpl in *; [discriminate|].
  apply orb_false_iff in Hc as [Hca Hc].
  destruct x as [|b x]; simpl.
  - rewrite Ascii.eqb_sym, Hca. reflexivity.
  - destruct (Ascii.eqb a b); [now apply IH | reflexivity].
Qed.

Lemma no_start_extend (sep s : string) (c : ascii) (R : string) :
  Str.mem_char c sep = false ->
  no_start sep s "" -> no_start sep s (String c R).
Proof.
  intros Hc. induction s as [|d s IH]; simpl; [trivial|].
  rewrite app_nil_r. intros [Hd Hs]. split; [|now apply IH].
  now apply (drop_prefix_foreign c R sep (String d s)).
Qed.

Lemma contains_false (sep s : string) :
  contains sep s = false -> no_start sep s "".
Proof.
  unfold contains. intros H. apply partition_none_inv.
  now destruct (Str.partition sep s).
Qed.

(** A text free of [sep] and followed by a quote. *)
Lemma no_start_quoted (sep s R : string) :
  Str.mem_char "'" sep = false ->
  contains sep s = false ->
  no_start sep s (String "'" R).
Proof. intros Hq Hs. apply no_start_extend; [exact Hq | now apply contains_false]. Qed.

(** A literal none of whose characters begins [sep]. *)
Lemma no_start_literal (a : ascii) (sep lit rest : string) :
  all_chars (fun c => negb (Ascii.eqb a c)) lit = true ->
  no_start (String a sep) lit rest.
Proof.
  intros H. apply (no_start_class (fun c => negb (Ascii.eqb a c))).
  - simpl. now rewrite Ascii.eqb_refl.
  - discriminate.
  - exact H.
Qed.

(** *** Stripping the quotes *)

Lemma rstrip_by_app_char (p : ascii -> bool) (s : string) (q : ascii) :
  p q = true -> Str.rstrip_by p (s ++ String q "") = Str.rstrip_by p s.
Proof.
  intros Hq. apply rstrip_by_app_all. simpl. now rewrite Hq.
Qed.

Lemma strip_by_quoted (p : ascii -> bool) (q : ascii) (s : string) :
  p q = true ->
  starts_with p s = false -> ends_with p s = false ->
  Str.strip_by p (String q (s ++ String q "")) = s.
Proof.
  intros Hq Hs He. unfold Str.strip_by. simpl. rewrite Hq.
  destruct s as [|c s].
  - simpl. now rewrite Hq.
  - simpl in Hs. cbn [append Str.lstrip_by]. rewrite Hs.
    change (String c (s ++ String q "")) with (String c s ++ String q "")%string.
    rewrite rstrip_by_app_char by exact Hq.
    now apply rstrip_by_ends.
Qed.

(** [" 'text'"] stripped of whitespace and then of quotes is [text]. *)
Lemma strip_quoted (s : string) :
  starts_with is_quote s = false -> ends_with is_quote s = false ->
  Str.strip_chars "'" (Str.strip (" '" ++ s ++ "'")) = s.
Proof.
  intros Hs He.
  assert (Hstrip : Str.strip (" '" ++ s ++ "'") = String "'" (s ++ "'")).
  { unfold Str.strip, Str.strip_by. cbn [append Str.lstrip_by].
    change (Str.is_space " ") with true. change (Str.is_space "'") with false.
    cbn iota. apply rstrip_by_ends.
    change (String "'" (s ++ "'")) with (String "'" s ++ String "'" "")%string.
    now rewrite ends_with_app_char. }
  rewrite Hstrip. unfold Str.strip_chars.
  now apply (strip_by_quoted (fun c => Str.mem_char c "'") "'" s).
Qed.

(** *** Parsing a well-formed suggestion *)

Ltac no_start_pieces :=
  repeat apply no_start_app;
  first [ apply no_start_literal; reflexivity
        | apply no_start_quoted; [reflexivity | assumption] ].

Lemma author_ok_inv (A : string) :
  author_ok A = true ->
  contains NL A = false /\ contains ", author:" A = false /\
  starts_with is_quote A = false /\ ends_with is_quote A = false.
Proof.
  unfold author_ok. rewrite !andb_true_iff, !negb_true_iff. tauto.
Qed.

Lemma suggestion_no_newline (T A : string) :
  contains NL T = false -> contains NL A = false ->
  Str.replace NL " " (suggestion T A) = suggestion T A.
Proof.
  intros HT HA. unfold Str.replace. rewrite split_none; [reflexivity|].
  apply partition_none; [|reflexivity].
  unfold suggestion, NL in *. no_start_pieces.
Qed.

Lemma suggestion_split (T A : string) :
  contains ", author:" T = false -> contains ", author:" A = false ->
  Str.split ", author:" (suggestion T A)
  = [("title: '" ++ T ++ "'")%string; (" '" ++ A ++ "'")%string].
Proof.
  intros HT HA.
  assert (E : suggestion T A
              = (("title: '" ++ T ++ "'") ++ ", author:" ++ " '" ++ A ++ "'")%string).
  { unfold suggestion. rewrite !app_assoc. reflexivity. }
  rewrite E.
  rewrite (split_cons ", author:" _ ("title: '" ++ T ++ "'") (" '" ++ A ++ "'"));
    [| discriminate |].
  - rewrite split_none; [reflexivity|].
    apply partition_none; [|reflexivity]. no_start_pieces.
  - apply partition_first. no_start_pieces.
Qed.

Lemma title_part_split (T : string) :
  contains "title:" T = false ->
  Str.split "title:" ("title: '" ++ T ++ "'")
  = [EmptyString; (" '" ++ T ++ "'")%string].
Proof.
  intros HT.
  rewrite (split_cons "title:" _ EmptyString (" '" ++ T ++ "'"));
    [| discriminate | now rewrite partition_unfold].
  rewrite split_none; [reflexivity|].
  apply partition_none; [|reflexivity]. no_start_pieces.
Qed.

Lemma parse_suggestion_ok (T A : string) :
  title_ok T = true -> author_ok A = true ->
  parse_suggestion (suggestion T A) = Ok (T, A).
Proof.
  unfold title_ok. rewrite andb_true_iff, negb_true_iff.
  intros [HT HTt] HA.
  apply author_ok_inv in HT as (HTn & HTs & HTq & HTe).
  apply author_ok_inv in HA as (HAn & HAs & HAq & HAe).
  unfold parse_suggestion.
  rewrite suggestion_no_newline, suggestion_split by assumption.
  cbn [length Nat.eqb list_get nth_error bind].
  rewrite title_part_split by assumption.
  cbn [list_get nth_error bind].
  now rewrite !strip_quoted by assumption.
Qed.

Lemma suggestion_not_correct (T A : string) :
  is_correct (suggestion T A) = false.
Proof. now apply is_correct_first. Qed.

End VerifyFacts.

(** C5.  A row whose reply is a confirmation, the word [correct] in any
    letter case with any whitespace around it, is appended unchanged to
    the updated rows and adds no comparison entry; so it is for the reply
    [Correct]. *)
Theorem verify_row_confirmed (llm : language_model) (st : verify_state)
    (title author : string) (rest : list string) :
  let row := title :: author :: rest in
  let res := verify_title_and_author llm title author in
  is_correct res = true
  \/ (exists ws1 w ws2,
        res = (ws1 ++ w ++ ws2)%string /\ Str.lower w = "correct" /\
        all_chars Str.is_space ws1 = true /\ all_chars Str.is_space ws2 = true)
  \/ llm (verify_prompt title author) = LlmResponse [Some "Correct"] ->
  verify_row llm st row
  = Ok (mkVerify (updated_rows st ++ [row]) (comparison_rows st)).
Proof.
  intros row res H.
  assert (Hc : is_correct res = true).
  { destruct H as [H|[(ws1 & w & ws2 & -> & Hw & H1 & H2)|H]].
    - exact H.
    - now apply VerifyFacts.is_correct_padded.
    - subst res. unfold verify_title_and_author. now rewrite H. }
  unfold verify_row. cbn [row unpack_title_author bind].
  fold res. now rewrite Hc.
Qed.

Lemma verify_row_confirmed_witness :
  verify_row (llm_says "Correct") (mkVerify [] []) ["Dune"; "Frank Herbert"; "1965"]
  = Ok (mkVerify [["Dune"; "Frank Herbert"; "1965"]] []).
Proof.
  apply (verify_row_confirmed (llm_says "Correct") (mkVerify [] [])
           "Dune" "Frank Herbert" ["1965"]).
  right. right. reflexivity.
Defined.

(** C8.  When the language-model call raises, or answers with no choice,
    no content or an empty content, [verify_title_and_author] returns
    [correct]; the row is then appended unchanged to the updated rows, no
    comparison entry is added and nothing is raised. *)
Theorem llm_failure_keeps_row (llm : language_model) (st : verify_state)
    (title author : string) (rest : list string) :
  llm_failed (llm (verify_prompt title author)) ->
  verify_title_and_author llm title author = "correct" /\
  verify_row llm st (title :: author :: rest)
  = Ok (mkVerify (updated_rows st ++ [title :: author :: rest]) (comparison_rows st)).
Proof.
  intros Hfail.
  assert (Hres : verify_title_and_author llm title author = "correct").
  { unfold verify_title_and_author.
    destruct (llm (verify_prompt title author)) as [e|[|[[|c s]|] choices]];
      simpl in *; solve [reflexivity | contradiction]. }
  split; [exact Hres|].
  unfold verify_row. cbn [unpack_title_author bind]. now rewrite Hres.
Qed.

Lemma llm_failure_keeps_row_witness :
  verify_row (fun _ => LlmRaise (OSError "connection reset")) (mkVerify [] [])
             ["Dune"; "Frank Herbert"]
  = Ok (mkVerify [["Dune"; "Frank Herbert"]] []).
Proof.
  apply (llm_failure_keeps_row (fun _ => LlmRaise (OSError "connection reset"))
           (mkVerify [] []) "Dune" "Frank Herbert" []).
  exact I.
Defined.

(** C7.  A row whose reply is not a confirmation and does not parse is
    appended unchanged to the updated rows, and a comparison entry that
    repeats the old title and author and carries the text of the error is
    added.  The parse raises nothing but the [ValueError] of line 123 or
    the [IndexError] of line 120, and neither escapes [verify_row]. *)
Theorem verify_row_parse_failure (llm : language_model) (st : verify_state)
    (title author : string) (rest : list string) (e : exn) :
  let row := title :: author :: rest in
  let res := verify_title_and_author llm title author in
  is_correct res = false ->
  parse_suggestion res = Raise e ->
  verify_row llm st row
  = Ok (mkVerify
          (updated_rows st ++ [row])
          (comparison_rows st
           ++ [[VStr title; VStr title; VStr author; VStr author; VStr (exn_str e)]]))
  /\ (e = ValueError "Unexpected response format"
      \/ e = IndexError "list index out of range").
Proof.
  intros row res Hc Hp. split.
  - unfold verify_row. cbn [row unpack_title_author bind].
    fold res. now rewrite Hc, Hp.
  - revert Hp. unfold parse_suggestion.
    destruct (Str.split ", author:" (Str.replace NL " " res))
      as [|p0 [|p1 [|p2 parts]]]; cbn [length Nat.eqb];
      try (intros [= <-]; now left).
    cbn [list_get nth_error bind].
    destruct (Str.split "title:" p0) as [|t0 [|t1 ts]];
      cbn [list_get nth_error bind]; intros [= <-]; now right.
Qed.

(** C6, as stated, fails: the quotes around the title are removed with
    [strip], which also takes the apostrophe that begins the title. *)
Lemma suggestion_applied_counterexample :
  ~ suggestion_applied "'Salem's Lot" "Stephen King".
Proof.
  intros H.
  specialize (H (llm_says (suggestion "'Salem's Lot" "Stephen King"))
                (mkVerify [] []) "Salems Lot" "Steven King" ["1975"] eq_refl).
  vm_compute in H. discriminate H.
Qed.

(** C6, amended.  When the reply is [title: 'T', author: 'A'] and
    neither [T] nor [A] contains a line break or [, author:], [T] does
    not contain [title:], and neither begins or ends with an apostrophe,
    the row's first two fields are replaced by [T] and [A], the other
    fields are kept, and the comparison entry (old title, [T], old
    author, [A]) is recorded with [None] as its error. *)
Theorem suggestion_applied_when_clean (T A : string) :
  title_ok T = true -> author_ok A = true -> suggestion_applied T A.
Proof.
  intros HT HA llm st title author rest Hres.
  unfold verify_row. cbn [unpack_title_author bind].
  rewrite Hres, VerifyFacts.suggestion_not_correct.
  now rewrite (VerifyFacts.parse_suggestion_ok T A HT HA).
Qed.

Lemma suggestion_applied_when_clean_witness :
  verify_row (llm_says "title: 'Dune', author: 'Frank Herbert'") (mkVerify [] [])
             ["Dun"; "F. Herbert"; "1965"]
  = Ok (mkVerify [["Dune"; "Frank Herbert"; "1965"]]
          [[VStr "Dun"; VStr "Dune"; VStr "F. Herbert"; VStr "Frank Herbert"; VNone]]).
Proof.
  apply (suggestion_applied_when_clean "Dune" "Frank Herbert" eq_refl eq_refl
           (llm_says "title: 'Dune', author: 'Frank Herbert'") (mkVerify [] [])
           "Dun" "F. Herbert" ["1965"]).
  reflexivity.
Defined.

Lemma verify_row_parse_failure_witness :
  verify_row (llm_says "I am not sure") (mkVerify [] []) ["Dune"; "Frank Herbert"]
  = Ok (mkVerify [["Dune"; "Frank Herbert"]]
          [[VStr "Dune"; VStr "Dune"; VStr "Frank Herbert"; VStr "Frank Herbert";
            VStr "Unexpected response format"]]).
Proof.
  apply (verify_row_parse_failure (llm_says "I am not sure") (mkVerify [] [])
           "Dune" "Frank Herbert" [] (ValueError "Unexpected response format"));
    reflexivity.
Defined.

(** ** The CSV store *)

Module CsvFacts.

Import Csv StrFacts.

(** *** Lines and characters *)

Lemma process_char_not_start (p p' : parser) (c : ascii) :
  process_char p (Some c) = Ok p' -> state p' <> START_RECORD.
Proof.
  unfold process_char, start_field, save_field, add_char.
  destruct (state p) eqn:Hs, (is_nl c), (Ascii.eqb c QUOTE), (Ascii.eqb c COMMA);
    intros H; try discriminate H; injection H as <-; simpl; congruence.
Qed.

Lemma feed_chars_app (a b : string) :
  forall p, feed_chars p (a ++ b) = (do p' <- feed_chars p a; feed_chars p' b).
Proof.
  induction a as [|c a IH]; intros p; simpl; [reflexivity|].
  destruct (process_char p (Some c)) as [p1|e]; cbn [bind]; [apply IH | reflexivity].
Qed.

Lemma process_line_chars (line : string) :
  forall p, process_line p line = (do q <- feed_chars p line; process_char q None).
Proof.
  induction line as [|c line IH]; intros p; simpl; [reflexivity|].
  destruct (process_char p (Some c)) as [p1|e]; cbn [bind]; [apply IH | reflexivity].
Qed.

Lemma feed_chars_not_start (cur : string) :
  forall p q,
    cur <> EmptyString -> feed_chars p cur = Ok q -> state q <> START_RECORD.
Proof.
  induction cur as [|c cur IH]; intros p q Hne; [congruence|]. simpl.
  destruct (process_char p (Some c)) as [p1|e] eqn:Hp; cbn [bind]; [|discriminate].
  destruct cur as [|d cur].
  - simpl. intros [= <-]. now apply (process_char_not_start p p1 c).
  - apply IH. discriminate.
Qed.

(** Reading line by line is feeding character by character. *)
Lemma read_feed (s : string) :
  forall (p : parser) (cur : string) (q : parser) recs qf,
    feed_chars p cur = Ok q ->
    feed q s = Ok (recs, qf) ->
    state qf = START_RECORD -> field qf = EmptyString ->
    read_records p (lines_from cur s) = Ok recs.
Proof.
  induction s as [|c s IH]; intros p cur q recs qf Hcur Hfeed Hst Hfield.
  - simpl in Hfeed. injection Hfeed as <- <-.
    destruct cur as [|d cur].
    + simpl in Hcur. injection Hcur as <-. simpl. now rewrite Hst, Hfield.
    + exfalso. apply (feed_chars_not_start (String d cur) p q); [discriminate | | ];
        assumption.
  - cbn [feed] in Hfeed. cbn [lines_from].
    destruct (process_char q (Some c)) as [q1|e] eqn:Hq1; cbn [bind] in Hfeed;
      [|discriminate].
    destruct (Ascii.eqb c LF) eqn:Hc.
    + apply Ascii.eqb_eq in Hc. subst c.
      destruct (process_char q1 None) as [q2|e] eqn:Hq2; cbn [bind] in Hfeed;
        [|discriminate].
      cbn [read_records].
      assert (Hline : process_line p (cur ++ s1 LF) = Ok q2).
      { rewrite process_line_chars, feed_chars_app, Hcur. cbn [bind s1 feed_chars].
        rewrite Hq1. cbn [bind]. exact Hq2. }
      rewrite Hline. cbn [bind].
      destruct (state q2) eqn:Hs2;
        try (apply (IH q2 EmptyString q2 recs qf); solve [reflexivity | assumption]).
      destruct (feed fresh s) as [[recs' qf']|e] eqn:Hrest; cbn [bind] in Hfeed;
        [|discriminate].
      injection Hfeed as <- <-.
      rewrite (IH fresh EmptyString fresh recs' qf') by (reflexivity || assumption).
      reflexivity.
    + apply (IH p (cur ++ s1 c)%string q1 recs qf); try assumption.
      rewrite feed_chars_app, Hcur. cbn [bind s1 feed_chars]. now rewrite Hq1.
Qed.

(** *** Feeding what the writer wrote *)

Lemma special_false (c : ascii) :
  special c = false ->
  Ascii.eqb c COMMA = false /\ Ascii.eqb c QUOTE = false /\
  is_nl c = false /\ Ascii.eqb c LF = false.
Proof.
  unfold special, is_nl. rewrite !orb_false_iff. tauto.
Qed.

(** Inside an unquoted field, plain characters pile up. *)
Lemma feed_plain (g : string) :
  forall acc done rest,
    needs_quote g = false ->
    feed (mkParser IN_FIELD acc done) (g ++ rest)
    = feed (mkParser IN_FIELD (acc ++ g) done) rest.
Proof.
  induction g as [|c g IH]; intros acc done rest Hg.
  - simpl. now rewrite app_nil_r.
  - simpl in Hg. apply orb_false_iff in Hg as [Hc Hg].
    destruct (special_false c Hc) as (Hcomma & _ & Hnl & Hlf).
    cbn [append feed process_char state]. rewrite Hnl, Hcomma, Hlf.
    unfold add_char. cbn [bind field fields]. rewrite (IH _ _ _ Hg).
    now rewrite app_assoc.
Qed.

(** Inside a quoted field everything piles up, a doubled quote as one
    quote, until the closing quote. *)
Lemma feed_quoted (f : string) :
  forall acc done rest,
    feed (mkParser IN_QUOTED_FIELD acc done) (double_quotes f ++ String QUOTE rest)
    = feed (mkParser QUOTE_IN_QUOTED_FIELD (acc ++ f) done) rest.
Proof.
  induction f as [|c f IH]; intros acc done rest.
  - simpl. now rewrite app_nil_r.
  - cbn [double_quotes]. destruct (Ascii.eqb c QUOTE) eqn:Hq.
    + apply Ascii.eqb_eq in Hq. subst c.
      cbn [append feed process_char state].
      change (Ascii.eqb QUOTE QUOTE) with true.
      change (Ascii.eqb QUOTE LF) with false.
      unfold add_char. cbn [bind field fields state process_char].
      change (Ascii.eqb QUOTE QUOTE) with true.
      unfold add_char. cbn [bind field fields]. rewrite IH. now rewrite app_assoc.
    + cbn [append feed process_char state]. rewrite Hq.
      unfold add_char. cbn [bind field fields].
      destruct (Ascii.eqb c LF); cbn [process_char state bind];
        rewrite IH; now rewrite app_assoc.
Qed.

Lemma feed_field_text (st : rstate) (done : list string) (f rest : string) :
  st = START_RECORD \/ st = START_FIELD ->
  feed (mkParser st EmptyString done) (field_text f ++ rest)
  = feed (after_field st done f) rest.
Proof.
  intros Hst. unfold field_text, after_field.
  destruct (needs_quote f) eqn:Hn.
  - rewrite !app_assoc.
    change (s1 QUOTE ++ double_quotes f ++ s1 QUOTE ++ rest)%string
      with (String QUOTE (double_quotes f ++ String QUOTE rest)).
    destruct Hst as [-> | ->]; cbn [feed process_char state]; cbn; apply feed_quoted.
  - destruct f as [|c f]; [reflexivity|].
    simpl in Hn. apply orb_false_iff in Hn as [Hc Hn].
    destruct (special_false c Hc) as (Hcomma & Hquote & Hnl & Hlf).
    destruct Hst as [-> | ->];
      cbn [append feed process_char start_field state];
      rewrite Hnl, Hquote, Hcomma, Hlf;
      unfold add_char; cbn [bind field fields append];
      now rewrite (feed_plain f _ _ _ Hn).
Qed.

Lemma feed_comma (st : rstate) (done : list string) (f rest : string) :
  st = START_RECORD \/ st = START_FIELD ->
  feed (after_field st done f) (String COMMA rest)
  = feed (mkParser START_FIELD EmptyString (done ++ [f])) rest.
Proof.
  intros Hst. unfold after_field.
  destruct (needs_quote f); [reflexivity|].
  destruct f as [|c f]; [|reflexivity].
  now destruct Hst as [-> | ->].
Qed.

Lemma feed_eol (st : rstate) (done : list string) (f rest : string) :
  st = START_FIELD \/ (st = START_RECORD /\ field_text f <> EmptyString) ->
  feed (after_field st done f) (String LF rest)
  = (do (recs, qf) <- feed fresh rest; Ok ((done ++ [f]) :: recs, qf)).
Proof.
  intros Hst. unfold after_field, field_text in *.
  destruct (needs_quote f); [reflexivity|].
  destruct f as [|c f]; [|reflexivity].
  destruct Hst as [-> | [_ Hne]]; [reflexivity | congruence].
Qed.

Lemma join_cons (sep x y : string) (l : list string) :
  Str.join sep (x :: y :: l) = (x ++ sep ++ Str.join sep (y :: l))%string.
Proof. reflexivity. Qed.

(** The fields of a record, one after the other. *)
Lemma feed_fields (fs : list string) :
  forall (f : string) (st : rstate) (done : list string) (rest : string),
    st = START_FIELD
    \/ (st = START_RECORD /\ (fs <> [] \/ field_text f <> EmptyString)) ->
    feed (mkParser st EmptyString done)
         (Str.join (s1 COMMA) (map field_text (f :: fs)) ++ String LF rest)
    = (do (recs, qf) <- feed fresh rest; Ok ((done ++ f :: fs) :: recs, qf)).
Proof.
  induction fs as [|g fs IH]; intros f st done rest Hst.
  - cbn [map Str.join String.concat].
    rewrite feed_field_text by tauto.
    apply feed_eol. destruct Hst as [->|[-> [H|H]]]; [now left | congruence | now right].
  - cbn [map]. rewrite join_cons, !app_assoc.
    rewrite feed_field_text by tauto.
    cbn [s1 append]. rewrite feed_comma by tauto.
    change (field_text g :: map field_text fs) with (map field_text (g :: fs)).
    rewrite IH by now left.
    now rewrite <- List.app_assoc.
Qed.

Lemma field_text_empty (f : string) :
  field_text f = EmptyString -> f = EmptyString.
Proof.
  unfold field_text. destruct (needs_quote f); [discriminate | auto].
Qed.

(** One record and its line feed give that record back. *)
Lemma feed_record (row : list string) (rest : string) :
  feed fresh (record_text row ++ String LF rest)
  = (do (recs, qf) <- feed fresh rest; Ok (row :: recs, qf)).
Proof.
  destruct row as [|f fs]; [reflexivity|].
  unfold record_text. cbn [length Nat.ltb Nat.leb andb].
  destruct (String.eqb_spec (Str.join (s1 COMMA) (map field_text (f :: fs))) "")
    as [He|Hne].
  - destruct fs as [|g fs].
    + cbn in He. apply field_text_empty in He. subst f. reflexivity.
    + cbn [map] in He. rewrite join_cons in He.
      destruct (field_text f); discriminate He.
  - apply (feed_fields fs f START_RECORD [] rest). right. split; [reflexivity|].
    destruct fs as [|g fs]; [right | left; discriminate].
    exact Hne.
Qed.

Lemma feed_lf_text (rows : list (list string)) :
  feed fresh (lf_text rows) = Ok (rows, fresh).
Proof.
  induction rows as [|row rows IH]; [reflexivity|].
  cbn [lf_text]. now rewrite feed_record, IH.
Qed.

(** *** What the text-mode file object makes of the writer's text *)

Lemma translate_cr_free (a b : string) :
  cr_free a = true ->
  translate_newlines (a ++ String CR (String LF b))
  = (a ++ String LF (translate_newlines b))%string.
Proof.
  unfold cr_free. induction a as [|c a IH]; simpl; [reflexivity|].
  rewrite andb_true_iff, negb_true_iff. intros [Hc Ha].
  now rewrite Hc, (IH Ha).
Qed.

Lemma cr_free_app (a b : string) :
  cr_free (a ++ b) = cr_free a && cr_free b.
Proof. apply all_chars_app. Qed.

Lemma cr_free_double_quotes (f : string) :
  cr_free f = true -> cr_free (double_quotes f) = true.
Proof.
  unfold cr_free. induction f as [|c f IH]; simpl; [reflexivity|].
  rewrite andb_true_iff. intros [Hc Hf].
  destruct (Ascii.eqb c QUOTE); simpl; rewrite (IH Hf); [reflexivity|].
  now rewrite Hc.
Qed.

Lemma cr_free_field_text (f : string) :
  cr_free f = true -> cr_free (field_text f) = true.
Proof.
  intros Hf. unfold field_text. destruct (needs_quote f); [|exact Hf].
  rewrite !cr_free_app, (cr_free_double_quotes f Hf). reflexivity.
Qed.

Lemma cr_free_record_text (row : list string) :
  Forall (fun f => cr_free f = true) row -> cr_free (record_text row) = true.
Proof.
  intros Hrow. unfold record_text.
  destruct ((0 <? length row)%nat && _); [reflexivity|].
  induction Hrow as [|f fs Hf Hfs IH]; [reflexivity|].
  destruct fs as [|g fs].
  - now apply cr_free_field_text.
  - cbn [map]. rewrite join_cons, !cr_free_app, (cr_free_field_text f Hf).
    cbn [andb]. exact IH.
Qed.

Lemma translate_writerows (rows : list (list string)) :
  Forall (Forall (fun f => cr_free f = true)) rows ->
  translate_newlines (writerows rows) = lf_text rows.
Proof.
  induction 1 as [|row rows Hrow Hrows IH]; [reflexivity|].
  cbn [writerows lf_text]. unfold writerow.
  rewrite !app_assoc. cbn [s1 append].
  rewrite translate_cr_free by now apply cr_free_record_text.
  now rewrite IH.
Qed.

End CsvFacts.

(** For headers and rows without carriage return, and with fields
    within the reader's limit, what [write_csv] writes is read back as
    it was. *)
Lemma csv_round_trip_without_cr (headers : list string) (rows : list (list string)) :
  Forall fits_field headers ->
  Forall (Forall fits_field) rows ->
  Forall (fun f => cr_free f = true) headers ->
  Forall (Forall (fun f => cr_free f = true)) rows ->
  read_csv (write_csv headers rows) = Ok (headers, rows).
Proof.
  intros _ _ Hh Hrows. unfold read_csv, Csv.reader, Csv.readlines.
  change (write_csv headers rows) with (Csv.writerows (headers :: rows)).
  rewrite CsvFacts.translate_writerows by now constructor.
  rewrite (CsvFacts.read_feed _ Csv.fresh EmptyString Csv.fresh (headers :: rows) Csv.fresh);
    try reflexivity.
  apply CsvFacts.feed_lf_text.
Qed.

(** C9.  A carriage return inside a field does not survive the round
    trip.  [write_csv] quotes the field and writes the carriage return as
    it is; the readers open the file without the empty [newline]
    argument that [write_csv] passes, so the carriage return is read as a
    line feed.  Fields with commas, quotes and line feeds do come back
    unchanged. *)
Theorem carriage_return_not_read_back :
  write_csv ["title"; "author"] [[cr_title; "x"]]
  = ("title,author" ++ CRLF
     ++ Csv.s1 Csv.QUOTE ++ cr_title ++ Csv.s1 Csv.QUOTE ++ ",x" ++ CRLF)%string /\
  read_csv (write_csv ["title"; "author"] [[cr_title; "x"]])
  = Ok (["title"; "author"], [[lf_title; "x"]]) /\
  cr_title <> lf_title /\
  read_csv (write_csv ["title"; "author"] [[lf_title; "a,b"; quoted_word]; []; [""]])
  = Ok (["title"; "author"], [[lf_title; "a,b"; quoted_word]; []; [""]]).
Proof.
  repeat split; try (vm_compute; reflexivity). discriminate.
Qed.

(** ** The pipeline *)

Section Pipeline.

(** The loop appends one result per finished task, as long as no failed
    task belongs to an empty row. *)
Lemma collect_settled (done : list future) :
  forall results,
    Forall (fun f => fut_row f <> [] \/ exists data, fut_result f = Ok data) done ->
    collect done results = Ok (results ++ map settled done).
Proof.
  induction done as [|f done IH]; intros results Hall; simpl.
  - now rewrite app_nil_r.
  - inversion Hall as [|? ? Hf Hdone]; subst.
    unfold settled at 1.
    destruct (fut_result f) as [data|e] eqn:Hres.
    + rewrite (IH _ Hdone), <- app_assoc. reflexivity.
    + destruct Hf as [Hrow|(data & Hd)]; [|congruence].
      destruct (fut_row f) as [|x row] eqn:Hr; [congruence|].
      cbn [list_get nth_error bind].
      rewrite (IH _ Hdone), <- app_assoc. reflexivity.
Qed.

Lemma submit_all_rows (nets : nat -> network) (rows : list (list string)) :
  forall i, map fut_row (submit_all nets i rows) = rows.
Proof.
  induction rows as [|row rows IH]; intros i; simpl; [reflexivity|].
  now rewrite IH.
Qed.

Lemma submit_all_length (nets : nat -> network) (rows : list (list string)) (i : nat) :
  length (submit_all nets i rows) = length rows.
Proof. now rewrite <- (submit_all_rows nets rows i) at 2; rewrite length_map. Qed.

(** Every future comes out of [as_completed] exactly once. *)
Lemma as_completed_all (futures : list future) :
  as_completed (seq 0 (length futures)) futures = futures.
Proof.
  unfold as_completed.
  enough (H : forall pre,
             flat_map (fun i => match nth_error (pre ++ futures) i with
                                | Some f => [f]
                                | None => []
                                end) (seq (length pre) (length futures)) = futures)
    by exact (H []).
  induction futures as [|f futures IH]; intros pre; simpl; [reflexivity|].
  rewrite nth_error_app2, Nat.sub_diag by lia. simpl. f_equal.
  specialize (IH (pre ++ [f])). rewrite <- app_assoc, length_app in IH. simpl in IH.
  now rewrite Nat.add_1_r in IH.
Qed.

Lemma as_completed_perm (order : list nat) (futures : list future) :
  Permutation order (seq 0 (length futures)) ->
  Permutation (as_completed order futures) futures.
Proof.
  intros Hp. rewrite <- (as_completed_all futures) at 2.
  unfold as_completed. now apply Permutation_flat_map.
Qed.

(** For rows that all have a first field, the run ends with one result
    per row, in completion order. *)
Lemma collect_one_per_row (nets : nat -> network) (order : list nat)
    (rows : list (list string)) :
  Forall (fun row => row <> []) rows ->
  Permutation order (seq 0 (length rows)) ->
  exists results,
    collect (as_completed order (submit_all nets 0 rows)) [] = Ok results /\
    length results = length rows /\
    Permutation results (map settled (submit_all nets 0 rows)).
Proof.
  intros Hrows Hp.
  set (futures := submit_all nets 0 rows).
  assert (Hperm : Permutation (as_completed order futures) futures).
  { apply as_completed_perm. subst futures. now rewrite submit_all_length. }
  exists (map settled (as_completed order futures)).
  split; [|split].
  - rewrite collect_settled; [reflexivity|].
    apply Forall_forall. intros f Hf. left.
    apply (Permutation_in _ Hperm) in Hf.
    assert (Hin : In (fut_row f) rows).
    { rewrite <- (submit_all_rows nets rows 0). now apply in_map. }
    now apply (proj1 (Forall_forall _ _) Hrows).
  - rewrite length_map, (Permutation_length Hperm). subst futures.
    apply submit_all_length.
  - now apply Permutation_map.
Qed.

End Pipeline.

(** C10.  A blank line in the input breaks the one-result-per-row rule:
    its row is empty, the task raises at the unpacking, and the handler
    that should append the row with two [None] cells raises itself,
    [IndexError], while formatting [row[0]].  The loop stops and the run
    ends without any result. *)
Theorem blank_line_aborts_collection (nets : nat -> network) (writable : string -> bool) :
  read_csv csv_blank_line = Ok (["title"; "author"], [[]]) /\
  map settled (submit_all nets 0 [[]]) = [[VNone; VNone]] /\
  collect (as_completed [0%nat] (submit_all nets 0 [[]])) []
  = Raise (IndexError "list index out of range") /\
  scrape_gr_data nets [0%nat] writable csv_blank_line
  = Raise (IndexError "list index out of range").
Proof. repeat split. Qed.

(** C1.  Short rows abort both stages.  [verify_book_info] unpacks the
    row outside its [try] block, so a row of one field raises
    [ValueError] and nothing is written; with a blank line both
    [verify_book_info] and [scrape_gr_data] raise. *)
Theorem short_rows_abort_the_run (llm : language_model) (nets : nat -> network)
    (writable : string -> bool) :
  verify_book_info llm csv_short_row
  = Raise (ValueError "not enough values to unpack (expected at least 2, got 1)") /\
  verify_book_info llm csv_blank_line
  = Raise (ValueError "not enough values to unpack (expected at least 2, got 0)") /\
  scrape_gr_data nets [0%nat] writable csv_blank_line
  = Raise (IndexError "list index out of range").
Proof. repeat split. Qed.

(** * Further properties *)

(** ** The fetcher, continued *)

(** X1.  A response that [make_request] returns has passed
    [raise_for_status]: its status is not in 400..599, so it is true in
    a boolean test, and the callers' [if not response] fires exactly when
    [make_request] returned [None]. *)
Theorem make_request_response_ok (net : network) (url : string) (max_retries : Z)
    (r : Response) :
  fst (make_request net url max_retries) = Some r ->
  response_ok r = true /\
  ~ (400 <= status_code r < 600) /\
  truthy (fst (make_request net url max_retries)) = true.
Proof.
  intros Hr.
  pose proof (make_request_some_ok net url max_retries r Hr) as Hok.
  split; [exact Hok|]. split.
  - unfold response_ok, raise_for_status in Hok.
    destruct ((400 <=? status_code r) && (status_code r <? 600)) eqn:Hs; [discriminate|].
    apply andb_false_iff in Hs. intros [H1 H2].
    destruct Hs as [Hs|Hs]; [apply Z.leb_gt in Hs | apply Z.ltb_ge in Hs]; lia.
  - rewrite Hr. exact Hok.
Qed.

Lemma make_request_response_ok_witness :
  response_ok (mkResponse 200 "page") = true.
Proof.
  apply (make_request_response_ok (net_page "page") "u" 5 (mkResponse 200 "page")).
  reflexivity.
Defined.





(** ** The search query *)

Module QueryFacts.

Import StrFacts.

Lemma split_fuel_not_nil (fuel : nat) (sep s : string) :
  Str.split_fuel fuel sep s <> [].
Proof.
  destruct fuel as [|fuel]; simpl; [discriminate|].
  destruct (Str.partition sep s) as [[a b]|]; discriminate.
Qed.

Lemma partition_char_cons (a c : ascii) (s : string) :
  Str.partition (String a "") (String c s)
  = if Ascii.eqb a c then Some (EmptyString, s)
    else match Str.partition (String a "") s with
         | Some (before, rest) => Some (String c before, rest)
         | None => None
         end.
Proof. cbn. now destruct (Ascii.eqb a c). Qed.

(** Splitting at a single character, one character at a time. *)
Lemma split_char_cons (a c : ascii) (s : string) :
  Str.split (String a "") (String c s)
  = if Ascii.eqb a c then EmptyString :: Str.split (String a "") s
    else match Str.split (String a "") s with
         | h :: t => String c h :: t
         | [] => [String c EmptyString]
         end.
Proof.
  destruct (Ascii.eqb a c) eqn:Hac.
  - rewrite (split_cons (String a "") _ EmptyString s); [reflexivity | discriminate |].
    now rewrite partition_char_cons, Hac.
  - destruct (Str.partition (String a "") s) as [[b r]|] eqn:Hp.
    + rewrite (split_cons (String a "") _ (String c b) r); [| discriminate |].
      * now rewrite (split_cons (String a "") s b r) by (discriminate || assumption).
      * now rewrite partition_char_cons, Hac, Hp.
    + rewrite (split_none _ s Hp). apply split_none.
      now rewrite partition_char_cons, Hac, Hp.
Qed.

(** Replacing one character by another is a character-wise map. *)
Lemma replace_char (a b : ascii) (s : string) :
  Str.replace (String a "") (String b "") s
  = map_chars (fun c => if Ascii.eqb c a then b else c) s.
Proof.
  unfold Str.replace. induction s as [|c s IH]; [reflexivity|].
  rewrite split_char_cons. cbn [map_chars]. rewrite (Ascii.eqb_sym c a).
  destruct (Ascii.eqb a c).
  - rewrite <- IH.
    destruct (Str.split (String a "") s) as [|h t] eqn:Hs; [|reflexivity].
    now apply split_fuel_not_nil in Hs.
  - rewrite <- IH.
    destruct (Str.split (String a "") s) as [|h t] eqn:Hs.
    + now apply split_fuel_not_nil in Hs.
    + destruct t; reflexivity.
Qed.

Lemma lower_map_chars (s : string) : Str.lower s = map_chars Str.lower_char s.
Proof. induction s as [|c s IH]; simpl; congruence. Qed.

Lemma map_chars_compose (f g : ascii -> ascii) (s : string) :
  map_chars f (map_chars g s) = map_chars (fun c => f (g c)) s.
Proof. induction s as [|c s IH]; simpl; congruence. Qed.

Lemma map_chars_length (f : ascii -> ascii) (s : string) :
  String.length (map_chars f s) = String.length s.
Proof. induction s as [|c s IH]; simpl; congruence. Qed.

Lemma query_char_not_space (c : ascii) :
  negb (Ascii.eqb (query_char c) " ") = true.
Proof. destruct c as [[] [] [] [] [] [] [] []]; reflexivity. Qed.

End QueryFacts.

(** X3.  The search URL is the fixed address, the title, a space and the
    author with every space turned into [+] and every ASCII capital into
    its small letter, and the fixed ending.  Every other character,
    [&], [#], [%] and [?] included, goes into the URL as it is; the query
    has as many characters as title and author together plus one, and no
    space. *)
Theorem search_url_charwise (title author : string) :
  let q := map_chars query_char (title ++ " " ++ author) in
  search_url title author
    = ("https://www.goodreads.com/search?q=" ++ q ++ "&qid=")%string /\
  String.length q = (String.length title + 1 + String.length author)%nat /\
  all_chars (fun c => negb (Ascii.eqb c " ")) q = true.
Proof.
  intros q. subst q. split; [|split].
  - unfold search_url.
    rewrite (QueryFacts.replace_char " " "+"), QueryFacts.lower_map_chars,
      QueryFacts.map_chars_compose.
    reflexivity.
  - rewrite QueryFacts.map_chars_length, StrFacts.length_app. simpl. lia.
  - induction (title ++ " " ++ author)%string as [|c s IH]; [reflexivity|].
    cbn [map_chars all_chars]. now rewrite QueryFacts.query_char_not_space, IH.
Qed.

(** ** The row enricher, continued *)

Lemma digit_val_nonneg (c : ascii) : Str.is_digit c = true -> 0 <= Str.digit_val c.
Proof.
  unfold Str.is_digit, Str.digit_val. cbv zeta.
  rewrite andb_true_iff, !N.leb_le. lia.
Qed.

Lemma digits_value_nonneg (s : string) :
  forall acc, is_digits s = true -> 0 <= acc -> 0 <= digits_value acc s.
Proof.
  unfold is_digits. induction s as [|c s IH]; intros acc Hs Hacc;
    cbn [digits_value]; [exact Hacc|].
  cbn [all_chars] in Hs. apply andb_true_iff in Hs as [Hc Hs].
  apply IH; [exact Hs|]. pose proof (digit_val_nonneg c Hc). lia.
Qed.

Lemma decimal_value_nonneg (ip fp : string) :
  is_digits ip = true -> is_digits fp = true -> (0 <= decimal_value ip fp)%Q.
Proof.
  intros Hi Hf. unfold decimal_value. rewrite Qred_correct.
  unfold Qle. simpl. rewrite Z.mul_1_r.
  apply digits_value_nonneg; [|lia].
  unfold is_digits in *. now rewrite StrFacts.all_chars_app, Hi, Hf.
Qed.

(** X4.  Extraction gives both values or none, and raises in one case
    only: the result is ([None], [None]); or a rating and a count that
    are both there and not negative, when the count found has at most
    4300 digits; or the [ValueError] of [int], when it has more. *)
Theorem extract_rating_values (page : string) :
  extract_rating page = Ok (VNone, VNone) \/
  (exists q n,
     extract_rating page = Ok (VFloat q, VInt n) /\ (0 <= q)%Q /\ 0 <= n /\
     (count_digits page <= int_max_str_digits)%nat) \/
  (extract_rating page = Raise (ValueError int_limit_message) /\
   (int_max_str_digits < count_digits page)%nat).
Proof.
  destruct rating_extraction as (_ & _ & H). specialize (H page).
  destruct (Re.search true rating_pattern page) as [m|].
  - right.
    destruct H as (pre & ip & fp & mid & a & cm & b & post & _ & _ & _
                   & [Hip _] & [Hfp _] & [Ha _] & _ & Hb & _ & _ & Hcount & Hex).
    rewrite Hcount, Hex.
    destruct (int_max_str_digits <? String.length (a ++ b))%nat eqn:Hcap.
    + right. apply Nat.ltb_lt in Hcap. now split.
    + left. apply Nat.ltb_ge in Hcap.
      exists (decimal_value ip fp), (digits_value 0 (a ++ b)).
      split; [reflexivity|]. split; [now apply decimal_value_nonneg|].
      split; [|exact Hcap].
      apply digits_value_nonneg; [|lia].
      unfold is_digits in *. now rewrite StrFacts.all_chars_app, Ha, Hb.
  - left. apply H.
Qed.

(** X5.  [scrape_book_data] returns normally exactly when the row has at
    least two fields and, if a page was fetched, the count found in it
    has at most 4300 digits.  Whatever it raises is a [ValueError]: at
    the unpacking for a row of fewer than two fields, before any request
    is sent, and from [int] otherwise. *)
Theorem scrape_book_data_ok_iff (net : network) (row : list string) :
  ((exists data, scrape_book_data net row = Ok data) <->
   (exists title author rest,
      row = title :: author :: rest /\ count_fits (fetched net title author))) /\
  (forall e, scrape_book_data net row = Raise e -> exists msg, e = ValueError msg) /\
  ((length row < 2)%nat ->
   exists msg, scrape_book_data net row = Raise (ValueError msg)).
Proof.
  destruct row as [|title [|author rest]].
  - cbn. split; [split|split].
    + intros (d & H). discriminate H.
    + intros (t & a & r & H & _). discriminate H.
    + intros e [= <-]. eauto.
    + intros _. eexists. reflexivity.
  - cbn. split; [split|split].
    + intros (d & H). discriminate H.
    + intros (t & a & r & H & _). discriminate H.
    + intros e [= <-]. eauto.
    + intros _. eexists. reflexivity.
  - pose proof (scrape_book_data_cases net title author rest) as Hcases.
    split; [split|split].
    + intros (d & Hd). exists title, author, rest. split; [reflexivity|].
      destruct (fetched net title author) as [r|]; [|exact I].
      cbn [count_fits].
      destruct (int_max_str_digits <? count_digits (text r))%nat eqn:Hcap.
      * congruence.
      * now apply Nat.ltb_ge in Hcap.
    + intros (t & a & r & [= <- <- <-] & Hfits).
      destruct (fetched net title author) as [r|]; [|eauto].
      cbn [count_fits] in Hfits. apply Nat.ltb_ge in Hfits.
      rewrite Hfits in Hcases. destruct Hcases as (x & y & ->). eauto.
    + intros e He.
      destruct (fetched net title author) as [r|]; [|congruence].
      destruct (int_max_str_digits <? count_digits (text r))%nat.
      * exists int_limit_message. congruence.
      * destruct Hcases as (x & y & Hxy). congruence.
    + simpl. lia.
Qed.

Lemma scrape_book_data_ok_iff_witness :
  exists msg, scrape_book_data net_down ["Dune"] = Raise (ValueError msg).
Proof.
  apply (scrape_book_data_ok_iff net_down ["Dune"]). simpl. lia.
Defined.

(** ** The verifier, continued *)

(** X6.  [verify_title_and_author] never returns the empty string: it
    returns [correct], or the non-empty content of the first choice of
    the model's response. *)
Theorem verify_title_and_author_not_empty (llm : language_model)
    (title author : string) :
  verify_title_and_author llm title author <> EmptyString /\
  (verify_title_and_author llm title author = "correct" \/
   exists others,
     llm (verify_prompt title author)
     = LlmResponse (Some (verify_title_and_author llm title author) :: others)).
Proof.
  unfold verify_title_and_author.
  destruct (llm (verify_prompt title author)) as [e|[|[[|c s]|] others]];
    cbn; split; try discriminate; eauto.
Qed.

(** Whatever the reply, one row goes to the updated rows, with the
    fields after the second untouched, and at most one entry of five
    cells goes to the comparison rows. *)
Lemma verify_row_shape (llm : language_model) (st : verify_state)
    (title author : string) (rest : list string) :
  exists t a cmp,
    verify_row llm st (title :: author :: rest)
    = Ok (mkVerify (updated_rows st ++ [t :: a :: rest])
                   (comparison_rows st ++ cmp)) /\
    (cmp = [] \/ exists e, cmp = [[VStr title; VStr t; VStr author; VStr a; e]]).
Proof.
  unfold verify_row. cbn [unpack_title_author bind].
  destruct (is_correct (verify_title_and_author llm title author)).
  - exists title, author, []. rewrite app_nil_r. auto.
  - destruct (parse_suggestion (verify_title_and_author llm title author))
      as [[t a]|e].
    + exists t, a, [[VStr title; VStr t; VStr author; VStr a; VNone]]. eauto.
    + exists title, author,
        [[VStr title; VStr title; VStr author; VStr author; VStr (exn_str e)]].
      eauto.
Qed.

Lemma verify_rows_shape (llm : language_model) (rows : list (list string)) :
  Forall (fun row => (2 <= length row)%nat) rows ->
  forall st,
  exists new cmp,
    verify_rows llm st rows
    = Ok (mkVerify (updated_rows st ++ new) (comparison_rows st ++ cmp)) /\
    Forall2 same_tail rows new /\
    (length cmp <= length rows)%nat /\
    Forall (fun entry => length entry = 5%nat) cmp.
Proof.
  induction 1 as [|row rows Hrow Hrows IH]; intros st.
  - exists [], []. cbn. rewrite !app_nil_r. destruct st; auto.
  - destruct row as [|title [|author rest]]; simpl in Hrow; try lia.
    destruct (verify_row_shape llm st title author rest) as (t & a & c1 & Hstep & Hc1).
    cbn [verify_rows]. rewrite Hstep. cbn [bind].
    destruct (IH (mkVerify (updated_rows st ++ [t :: a :: rest])
                           (comparison_rows st ++ c1)))
      as (new & c2 & Hrest & Htails & Hlen & Hfive).
    cbn [updated_rows comparison_rows] in Hrest.
    exists ((t :: a :: rest) :: new), (c1 ++ c2).
    rewrite Hrest, <- !app_assoc. cbn [app].
    split; [reflexivity|]. split; [|split].
    + constructor; [|exact Htails]. split; reflexivity.
    + rewrite length_app. destruct Hc1 as [->|(e & ->)]; simpl; lia.
    + apply Forall_app. split; [|exact Hfive].
      destruct Hc1 as [->|(e & ->)]; repeat constructor.
Qed.

Lemma verify_rows_short (llm : language_model) (rows : list (list string)) :
  Exists (fun row => (length row < 2)%nat) rows ->
  forall st, exists msg, verify_rows llm st rows = Raise (ValueError msg).
Proof.
  induction 1 as [row rows Hrow|row rows Hrows IH]; intros st.
  - destruct row as [|title [|author rest]]; simpl in Hrow; try lia;
      cbn; eauto.
  - destruct row as [|title [|author rest]]; try (cbn; eauto; fail).
    destruct (verify_row_shape llm st title author rest) as (t & a & c1 & Hstep & _).
    cbn [verify_rows]. rewrite Hstep. cbn [bind]. apply IH.
Qed.

(** X7.  The verification stage ends normally exactly when every data
    row has at least two fields.  It then keeps the headers and returns
    one row per input row, in the input order, each as long as its input
    row and with the same fields after the second; the comparison rows
    number at most one per input row and have five cells each.  A row of
    fewer than two fields makes the stage raise [ValueError]. *)
Theorem verify_book_info_shape (llm : language_model) (input_csv : string)
    (headers : list string) (rows : list (list string)) :
  read_csv input_csv = Ok (headers, rows) ->
  (Forall (fun row => (2 <= length row)%nat) rows ->
   exists out,
     verify_book_info llm input_csv = Ok out /\
     out_headers out = headers /\
     Forall2 same_tail rows (out_rows out) /\
     (length (out_comparison out) <= length rows)%nat /\
     Forall (fun entry => length entry = length comparison_headers)
            (out_comparison out)) /\
  (Exists (fun row => (length row < 2)%nat) rows ->
   exists msg, verify_book_info llm input_csv = Raise (ValueError msg)).
Proof.
  intros Hread. unfold verify_book_info. rewrite Hread. cbn [bind]. split.
  - intros Hrows.
    destruct (verify_rows_shape llm rows Hrows (mkVerify [] []))
      as (new & cmp & -> & Htails & Hlen & Hfive).
    cbn [bind updated_rows comparison_rows app].
    eexists. split; [reflexivity|]. cbn. auto.
  - intros Hshort.
    destruct (verify_rows_short llm rows Hshort (mkVerify [] [])) as (msg & ->).
    cbn [bind]. eauto.
Qed.

Lemma verify_book_info_shape_witness :
  exists out,
    verify_book_info (llm_says "title: 'Dune', author: 'Frank Herbert'")
                     ("title,author,year" ++ CRLF ++ "Dun,F. Herbert,1965" ++ CRLF)
    = Ok out /\
    out_headers out = ["title"; "author"; "year"].
Proof.
  destruct (verify_book_info_shape
              (llm_says "title: 'Dune', author: 'Frank Herbert'")
              ("title,author,year" ++ CRLF ++ "Dun,F. Herbert,1965" ++ CRLF)
              ["title"; "author"; "year"] [["Dun"; "F. Herbert"; "1965"]] eq_refl)
    as [Hok _].
  destruct Hok as (out & Hrun & Hhead & _).
  - repeat constructor.
  - exists out. split; assumption.
Defined.

Lemma verify_rows_confirmed (llm : language_model) (rows : list (list string)) :
  Forall (fun row =>
            exists title author rest,
              row = title :: author :: rest /\
              (llm_failed (llm (verify_prompt title author)) \/
               is_correct (verify_title_and_author llm title author) = true)) rows ->
  forall st,
    verify_rows llm st rows = Ok (mkVerify (updated_rows st ++ rows) (comparison_rows st)).
Proof.
  induction 1 as [|row rows Hrow Hrows IH]; intros st.
  - cbn. rewrite app_nil_r. now destruct st.
  - destruct Hrow as (title & author & rest & -> & Hreply).
    assert (Hc : is_correct (verify_title_and_author llm title author) = true).
    { destruct Hreply as [Hfail|Hc]; [|exact Hc].
      unfold verify_title_and_author.
      destruct (llm (verify_prompt title author)) as [e|[|[[|c s]|] others]];
        simpl in Hfail; solve [reflexivity | contradiction]. }
    cbn [verify_rows]. unfold verify_row. cbn [unpack_title_author bind].
    rewrite Hc. cbn [bind]. rewrite IH. cbn [updated_rows comparison_rows].
    now rewrite <- app_assoc.
Qed.

(** X8.  When every reply is a confirmation or a failure of the
    language-model call, the stage writes the rows back as they were and
    the comparison file gets no row. *)
Theorem verify_book_info_all_confirmed (llm : language_model) (input_csv : string)
    (headers : list string) (rows : list (list string)) :
  read_csv input_csv = Ok (headers, rows) ->
  Forall (fun row =>
            exists title author rest,
              row = title :: author :: rest /\
              (llm_failed (llm (verify_prompt title author)) \/
               is_correct (verify_title_and_author llm title author) = true)) rows ->
  verify_book_info llm input_csv = Ok (mkVerifyOutput headers rows []).
Proof.
  intros Hread Hrows. unfold verify_book_info. rewrite Hread. cbn [bind].
  now rewrite (verify_rows_confirmed llm rows Hrows).
Qed.

Lemma verify_book_info_all_confirmed_witness :
  verify_book_info (fun _ => LlmRaise (OSError "timeout"))
                   ("title,author" ++ CRLF ++ "Dune,Frank Herbert" ++ CRLF)
  = Ok (mkVerifyOutput ["title"; "author"] [["Dune"; "Frank Herbert"]] []).
Proof.
  apply (verify_book_info_all_confirmed (fun _ => LlmRaise (OSError "timeout"))
           ("title,author" ++ CRLF ++ "Dune,Frank Herbert" ++ CRLF)
           ["title"; "author"] [["Dune"; "Frank Herbert"]] eq_refl).
  repeat constructor. exists "Dune", "Frank Herbert", []. split; [reflexivity|].
  left. exact I.
Defined.

(** ** The pipeline, continued *)

Module PipelineFacts.

(** What is appended for a row that has a first field: the row and two
    cells, whether the task returned or raised. *)
Lemma settled_enriched (net : network) (row : list string) :
  row <> [] ->
  enriched_of row (settled (mkFuture row (scrape_book_data net row))).
Proof.
  intros Hrow. unfold settled, enriched_of. cbn [fut_result fut_row].
  destruct row as [|title [|author rest]]; [congruence | cbn; eauto |].
  pose proof (scrape_book_data_cases net title author rest) as Hcases.
  destruct (fetched net title author) as [r|].
  - destruct (int_max_str_digits <? count_digits (text r))%nat.
    + rewrite Hcases. eauto.
    + destruct Hcases as (x & y & ->). eauto.
  - rewrite Hcases. eauto.
Qed.

Lemma submit_all_enriched (nets : nat -> network) (rows : list (list string)) :
  Forall (fun row => row <> []) rows ->
  forall i, Forall (fun f => enriched_of (fut_row f) (settled f)) (submit_all nets i rows).
Proof.
  induction 1 as [|row rows Hrow Hrows IH]; intros i; cbn [submit_all];
    constructor; [|apply IH].
  cbn [fut_row]. now apply settled_enriched.
Qed.

Lemma submit_all_blank (nets : nat -> network) (rows : list (list string)) :
  forall i,
    Forall (fun f => fut_row f = [] -> exists e, fut_result f = Raise e)
           (submit_all nets i rows).
Proof.
  induction rows as [|row rows IH]; intros i; cbn [submit_all];
    constructor; [|apply IH].
  cbn [fut_row fut_result]. intros ->. cbn. eauto.
Qed.

(** The loop stops at the first finished task whose row is empty. *)
Lemma collect_blank (done : list future) :
  Forall (fun f => fut_row f = [] -> exists e, fut_result f = Raise e) done ->
  Exists (fun f => fut_row f = []) done ->
  forall results,
    collect done results = Raise (IndexError "list index out of range").
Proof.
  induction done as [|f done IH]; intros Hall Hex results.
  - inversion Hex.
  - inversion Hall as [|? ? Hf Hdone]; subst. cbn [collect].
    destruct (fut_row f) as [|x row] eqn:Hrow.
    + destruct (Hf eq_refl) as (e & ->). reflexivity.
    + assert (Hex' : Exists (fun f => fut_row f = []) done).
      { inversion Hex as [? ? H|? ? H]; subst; [congruence | exact H]. }
      destruct (fut_result f); cbn [list_get nth_error bind]; now apply IH.
Qed.

End PipelineFacts.

(** X9.  When every row of the input has at least one field, the run
    ends normally whatever the completion order: the headers get the two
    new names, there is one result per row, and the results are, in some
    order, the rows with two cells appended each. *)
Theorem scrape_gr_data_one_result_per_row (nets : nat -> network) (order : list nat)
    (writable : string -> bool) (input_csv : string)
    (headers : list string) (rows : list (list string)) :
  read_csv input_csv = Ok (headers, rows) ->
  Permutation order (seq 0 (length rows)) ->
  Forall (fun row => row <> []) rows ->
  exists results rows',
    scrape_gr_data nets order writable input_csv
    = Ok (mkRun (headers ++ ["rating"; "num_ratings"]) results
                (store_results writable)) /\
    length results = length rows /\
    Permutation rows' rows /\
    Forall2 enriched_of rows' results.
Proof.
  intros Hread Hperm Hrows.
  unfold scrape_gr_data. rewrite Hread. cbn [bind].
  set (futures := submit_all nets 0 rows).
  assert (Hdone : Permutation (as_completed order futures) futures).
  { apply as_completed_perm. subst futures. now rewrite submit_all_length. }
  assert (Hall : Forall (fun f => enriched_of (fut_row f) (settled f))
                        (as_completed order futures)).
  { apply Forall_forall. intros f Hf. apply (Permutation_in _ Hdone) in Hf.
    revert f Hf. apply Forall_forall.
    now apply PipelineFacts.submit_all_enriched. }
  exists (map settled (as_completed order futures)),
         (map fut_row (as_completed order futures)).
  split; [|split; [|split]].
  - rewrite collect_settled; [reflexivity|].
    apply Forall_forall. intros f Hf. left.
    apply (Permutation_in _ Hdone) in Hf.
    assert (Hin : In (fut_row f) rows).
    { rewrite <- (submit_all_rows nets rows 0). now apply in_map. }
    now apply (proj1 (Forall_forall _ _) Hrows).
  - rewrite length_map, (Permutation_length Hdone). subst futures.
    apply submit_all_length.
  - rewrite <- (submit_all_rows nets rows 0). now apply Permutation_map.
  - clear - Hall.
    induction Hall as [|f done Hf _ IH]; cbn [map]; constructor; assumption.
Qed.

Lemma scrape_gr_data_one_result_per_row_witness :
  exists results rows',
    scrape_gr_data (fun _ => net_down) [1%nat; 0%nat] (fun _ => true) csv_dune_emma
    = Ok (mkRun ["title"; "author"; "rating"; "num_ratings"] results
                (store_results (fun _ => true))) /\
    length results = 2%nat /\
    Permutation rows' [["Dune"; "Frank Herbert"]; ["Emma"]] /\
    Forall2 enriched_of rows' results.
Proof.
  apply (scrape_gr_data_one_result_per_row (fun _ => net_down) [1%nat; 0%nat]
           (fun _ => true) csv_dune_emma ["title"; "author"]
           [["Dune"; "Frank Herbert"]; ["Emma"]] eq_refl).
  - apply perm_swap.
  - repeat constructor; discriminate.
Defined.

(** X10.  A row without any field stops the run: when the input has such
    a row, which is what a blank line is read as, the collection loop
    raises [IndexError] whatever the completion order and the network,
    and nothing is stored. *)
Theorem scrape_gr_data_blank_row (nets : nat -> network) (order : list nat)
    (writable : string -> bool) (input_csv : string)
    (headers : list string) (rows : list (list string)) :
  read_csv input_csv = Ok (headers, rows) ->
  Permutation order (seq 0 (length rows)) ->
  In [] rows ->
  scrape_gr_data nets order writable input_csv
  = Raise (IndexError "list index out of range").
Proof.
  intros Hread Hperm Hblank.
  unfold scrape_gr_data. rewrite Hread. cbn [bind].
  set (futures := submit_all nets 0 rows).
  assert (Hdone : Permutation (as_completed order futures) futures).
  { apply as_completed_perm. subst futures. now rewrite submit_all_length. }
  rewrite PipelineFacts.collect_blank; [reflexivity | |].
  - apply Forall_forall. intros f Hf. apply (Permutation_in _ Hdone) in Hf.
    exact (proj1 (Forall_forall _ _) (PipelineFacts.submit_all_blank nets rows 0) f Hf).
  - apply Exists_exists.
    rewrite <- (submit_all_rows nets rows 0) in Hblank.
    apply in_map_iff in Hblank as (f & Hrow & Hf).
    exists f. split; [|exact Hrow].
    apply (Permutation_in _ (Permutation_sym Hdone)). exact Hf.
Qed.

Lemma scrape_gr_data_blank_row_witness :
  scrape_gr_data (fun _ => net_down) [1%nat; 0%nat] (fun _ => true) csv_dune_blank
  = Raise (IndexError "list index out of range").
Proof.
  apply (scrape_gr_data_blank_row (fun _ => net_down) [1%nat; 0%nat]
           (fun _ => true) csv_dune_blank ["title"; "author"]
           [["Dune"; "Frank Herbert"]; []] eq_refl).
  - apply perm_swap.
  - right. left. reflexivity.
Defined.

(** X11.  The completion order only changes the order of the results:
    two runs on the same input and the same network, with rows that all
    have a first field, end with results that are permutations of each
    other. *)
Theorem scrape_gr_data_order_independent (nets : nat -> network)
    (order1 order2 : list nat) (writable : string -> bool) (input_csv : string)
    (headers : list string) (rows : list (list string)) :
  read_csv input_csv = Ok (headers, rows) ->
  Permutation order1 (seq 0 (length rows)) ->
  Permutation order2 (seq 0 (length rows)) ->
  Forall (fun row => row <> []) rows ->
  exists run1 run2,
    scrape_gr_data nets order1 writable input_csv = Ok run1 /\
    scrape_gr_data nets order2 writable input_csv = Ok run2 /\
    run_headers run1 = run_headers run2 /\
    Permutation (run_results run1) (run_results run2).
Proof.
  intros Hread Hp1 Hp2 Hrows.
  destruct (collect_one_per_row nets order1 rows Hrows Hp1) as (r1 & Hc1 & _ & Hperm1).
  destruct (collect_one_per_row nets order2 rows Hrows Hp2) as (r2 & Hc2 & _ & Hperm2).
  unfold scrape_gr_data. rewrite Hread. cbn [bind]. rewrite Hc1, Hc2. cbn [bind].
  eexists. eexists. split; [reflexivity|]. split; [reflexivity|].
  cbn [run_headers run_results]. split; [reflexivity|].
  now rewrite Hperm1, Hperm2.
Qed.

Lemma scrape_gr_data_order_independent_witness :
  exists run1 run2,
    scrape_gr_data (fun _ => net_down) [0%nat; 1%nat] (fun _ => true)
                   csv_two_books = Ok run1 /\
    scrape_gr_data (fun _ => net_down) [1%nat; 0%nat] (fun _ => true)
                   csv_two_books = Ok run2 /\
    run_headers run1 = run_headers run2 /\
    Permutation (run_results run1) (run_results run2).
Proof.
  apply (scrape_gr_data_order_independent (fun _ => net_down)
           [0%nat; 1%nat] [1%nat; 0%nat] (fun _ => true) csv_two_books
           ["title"; "author"]
           [["Dune"; "Frank Herbert"]; ["Emma"; "Jane Austen"]] eq_refl).
  - apply Permutation_refl.
  - apply perm_swap.
  - repeat constructor; discriminate.
Defined.

(** ** The CSV store, continued *)

Module ReaderFacts.

Import Csv StrFacts.

(** *** What a text-mode file hands to the reader *)

Lemma translate_no_cr_bounded (n : nat) :
  forall s, (String.length s <= n)%nat -> cr_free (translate_newlines s) = true.
Proof.
  unfold cr_free. induction n as [|n IH]; intros s Hlen.
  - destruct s; [reflexivity | simpl in Hlen; lia].
  - destruct s as [|c s]; [reflexivity|]. simpl in Hlen.
    cbn [translate_newlines]. destruct (Ascii.eqb c CR) eqn:Hc.
    + destruct s as [|d s]; [reflexivity|]. simpl in Hlen.
      destruct (Ascii.eqb d LF); cbn [all_chars];
        change (negb (Ascii.eqb LF CR)) with true; cbn [andb];
        apply IH; simpl; lia.
    + cbn [all_chars]. rewrite Hc. cbn [negb andb]. apply IH. lia.
Qed.

Lemma translate_no_cr (s : string) : cr_free (translate_newlines s) = true.
Proof. now apply (translate_no_cr_bounded (String.length s)). Qed.

Lemma translate_not_empty (s : string) :
  s <> EmptyString -> translate_newlines s <> EmptyString.
Proof.
  destruct s as [|c s]; [congruence|]. intros _. cbn [translate_newlines].
  destruct (Ascii.eqb c CR); [|discriminate].
  destruct s as [|d s]; [discriminate|]. destruct (Ascii.eqb d LF); discriminate.
Qed.

Lemma line_ok_nl_free (l : string) : nl_free l = true -> line_ok l = true.
Proof.
  unfold nl_free. induction l as [|c l IH]; [reflexivity|].
  cbn [all_chars line_ok]. rewrite andb_true_iff. intros [Hc Hl].
  destruct l as [|d l].
  - unfold is_nl in Hc. rewrite negb_true_iff, orb_false_iff in Hc.
    destruct Hc as [_ ->]. reflexivity.
  - now rewrite Hc, (IH Hl).
Qed.

Lemma line_ok_lf (cur : string) :
  nl_free cur = true -> line_ok (cur ++ s1 LF) = true.
Proof.
  unfold nl_free. induction cur as [|c cur IH]; [reflexivity|].
  cbn [all_chars append]. rewrite andb_true_iff. intros [Hc Hcur].
  specialize (IH Hcur). cbn [line_ok].
  destruct (cur ++ s1 LF)%string eqn:E.
  - destruct cur; discriminate E.
  - now rewrite Hc, IH.
Qed.

Lemma nl_free_snoc (cur : string) (c : ascii) :
  nl_free cur = true -> Ascii.eqb c LF = false -> Ascii.eqb c CR = false ->
  nl_free (cur ++ s1 c) = true.
Proof.
  unfold nl_free. intros Hcur Hlf Hcr. rewrite all_chars_app, Hcur.
  cbn. unfold is_nl. now rewrite Hlf, Hcr.
Qed.

(** Every line is free of line breaks but for its final line feed. *)
Lemma lines_from_ok (s : string) :
  forall cur,
    nl_free cur = true -> cr_free s = true ->
    Forall (fun l => line_ok l = true) (lines_from cur s).
Proof.
  unfold cr_free. induction s as [|c s IH]; intros cur Hcur Hs; cbn [lines_from].
  - destruct cur; constructor; [|constructor]. now apply line_ok_nl_free.
  - cbn [all_chars] in Hs. apply andb_true_iff in Hs as [Hc Hs].
    apply negb_true_iff in Hc.
    destruct (Ascii.eqb c LF) eqn:Hlf.
    + constructor; [now apply line_ok_lf | now apply IH].
    + apply IH; [now apply nl_free_snoc | exact Hs].
Qed.

Lemma lines_from_not_nil (s cur : string) :
  s <> EmptyString -> lines_from cur s <> [].
Proof.
  revert cur. induction s as [|c s IH]; intros cur Hne; [congruence|].
  cbn [lines_from]. destruct (Ascii.eqb c LF); [discriminate|].
  destruct s as [|d s].
  - cbn. destruct (cur ++ s1 c)%string eqn:E; [|discriminate].
    destruct cur; discriminate E.
  - apply IH. discriminate.
Qed.

(** *** The automaton on such lines *)

Lemma process_plain (p : parser) (c : ascii) :
  state p <> EAT_CRNL -> is_nl c = false ->
  exists p', process_char p (Some c) = Ok p' /\ state p' <> EAT_CRNL.
Proof.
  intros Hst Hc. unfold process_char, start_field, save_field, add_char.
  rewrite Hc.
  destruct (state p) eqn:Hs, (Ascii.eqb c QUOTE), (Ascii.eqb c COMMA);
    try congruence; eexists; (split; [reflexivity | cbn; congruence]).
Qed.

Lemma process_last (p : parser) (c : ascii) :
  state p <> EAT_CRNL -> Ascii.eqb c CR = false ->
  exists p', process_char p (Some c) = Ok p'.
Proof.
  intros Hst Hc. unfold process_char, start_field.
  destruct (state p) eqn:Hs, (is_nl c), (Ascii.eqb c QUOTE), (Ascii.eqb c COMMA);
    try congruence; eexists; reflexivity.
Qed.

Lemma process_eol (p : parser) :
  exists p', process_char p None = Ok p' /\ between_lines p'.
Proof.
  unfold process_char, start_field, save_field, between_lines.
  destruct (state p) eqn:Hs; eexists; (split; [reflexivity | cbn; auto]).
Qed.

Lemma process_line_ok (l : string) :
  forall p,
    line_ok l = true -> state p <> EAT_CRNL ->
    exists p', process_line p l = Ok p' /\ between_lines p'.
Proof.
  induction l as [|c l IH]; intros p Hl Hst.
  - cbn [process_line]. apply process_eol.
  - cbn [process_line]. destruct l as [|d l].
    + cbn [line_ok] in Hl. apply negb_true_iff in Hl.
      destruct (process_last p c Hst Hl) as (p1 & ->). cbn [bind process_line].
      apply process_eol.
    + cbn [line_ok] in Hl. apply andb_true_iff in Hl as [Hc Hl].
      apply negb_true_iff in Hc.
      destruct (process_plain p c Hst Hc) as (p1 & -> & Hst1). cbn [bind].
      now apply IH.
Qed.

Lemma between_lines_not_eat (p : parser) : between_lines p -> state p <> EAT_CRNL.
Proof. intros [H|H]; rewrite H; discriminate. Qed.

(** On such lines the reader never raises, and it yields a record as
    soon as there is a line. *)
Lemma read_records_ok (lines : list string) :
  forall p,
    Forall (fun l => line_ok l = true) lines -> between_lines p ->
    exists recs,
      read_records p lines = Ok recs /\ (lines <> [] -> recs <> []) /\
      (state p = IN_QUOTED_FIELD -> recs <> []).
Proof.
  induction lines as [|l lines IH]; intros p Hall Hp.
  - cbn [read_records]. destruct Hp as [Hp|Hp]; rewrite Hp.
    + destruct (field p); eexists; (split; [reflexivity|]);
        (split; [congruence | discriminate]).
    + eexists. split; [reflexivity|]. split; discriminate.
  - inversion Hall as [|? ? Hl Hlines]; subst. cbn [read_records].
    destruct (process_line_ok l p Hl (between_lines_not_eat p Hp)) as (p' & -> & Hp').
    cbn [bind]. destruct Hp' as [Hs|Hs]; rewrite Hs.
    + destruct (IH fresh Hlines (or_introl eq_refl)) as (rest & -> & _).
      cbn [bind]. eexists. split; [reflexivity|]. split; discriminate.
    + destruct (IH p' Hlines (or_intror Hs)) as (recs & -> & _ & Hne).
      eexists. split; [reflexivity|]. split; intros _; now apply Hne.
Qed.

End ReaderFacts.

(** X12.  Reading the input file cannot fail on its content: an empty
    file has no header line and stops the stage with [StopIteration];
    every other content, however its quotes and line ends are placed,
    gives a header and rows.  [content] is the decoded text of the file.
    (The reader's cap on the size of a field, and the refusal of NUL
    characters by interpreters older than 3.11, are outside the model.) *)
Theorem read_csv_total (content : string) :
  (content = EmptyString -> read_csv content = Raise StopIteration) /\
  (content <> EmptyString ->
   exists headers rows, read_csv content = Ok (headers, rows)).
Proof.
  split.
  - intros ->. reflexivity.
  - intros Hne. unfold read_csv, Csv.reader, Csv.readlines.
    destruct (ReaderFacts.read_records_ok
                (Csv.lines_from EmptyString (Csv.translate_newlines content))
                Csv.fresh)
      as (recs & -> & Hrecs & _).
    + apply ReaderFacts.lines_from_ok; [reflexivity | apply ReaderFacts.translate_no_cr].
    + left. reflexivity.
    + cbn [bind]. destruct recs as [|headers rows]; [|eauto].
      exfalso. apply Hrecs; [|reflexivity].
      apply ReaderFacts.lines_from_not_nil.
      now apply ReaderFacts.translate_not_empty.
Qed.

Lemma read_csv_total_witness :
  exists headers rows, read_csv "title" = Ok (headers, rows).
Proof.
  apply (read_csv_total "title"). discriminate.
Defined.

Module RoundTripFacts.

Import Csv StrFacts.

Lemma translate_cr_free_id (f : string) :
  cr_free f = true -> translate_newlines f = f.
Proof.
  unfold cr_free. induction f as [|c f IH]; [reflexivity|].
  cbn [all_chars translate_newlines]. rewrite andb_true_iff, negb_true_iff.
  intros [Hc Hf]. now rewrite Hc, (IH Hf).
Qed.

Lemma translate_app_cr_free (a X : string) :
  cr_free a = true ->
  translate_newlines (a ++ X) = (a ++ translate_newlines X)%string.
Proof.
  unfold cr_free. induction a as [|c a IH]; [reflexivity|].
  cbn [all_chars append translate_newlines]. rewrite andb_true_iff, negb_true_iff.
  intros [Hc Ha]. now rewrite Hc, (IH Ha).
Qed.

Lemma needs_quote_cr_free (f : string) :
  needs_quote f = false -> cr_free f = true.
Proof.
  unfold cr_free. induction f as [|c f IH]; [reflexivity|].
  cbn [needs_quote all_chars]. rewrite orb_false_iff. intros [Hc Hf].
  rewrite (IH Hf). unfold special in Hc. rewrite !orb_false_iff in Hc.
  destruct Hc as [[[_ _] Hcr] _]. now rewrite Hcr.
Qed.

Lemma needs_quote_translate (f : string) :
  needs_quote (translate_newlines f) = needs_quote f.
Proof.
  induction f as [|c f IH]; [reflexivity|].
  cbn [translate_newlines]. destruct (Ascii.eqb c CR) eqn:Hc.
  - apply Ascii.eqb_eq in Hc. subst c.
    destruct f as [|d f]; [reflexivity|]. now destruct (Ascii.eqb d LF).
  - cbn [needs_quote]. now rewrite IH.
Qed.

Lemma translate_empty (f : string) :
  translate_newlines f = EmptyString -> f = EmptyString.
Proof.
  destruct f as [|c f]; [reflexivity|]. cbn [translate_newlines].
  destruct (Ascii.eqb c CR); [|discriminate].
  destruct f as [|d f]; [discriminate|]. destruct (Ascii.eqb d LF); discriminate.
Qed.

(** The body of a quoted field: translating what was written is writing
    what was translated. *)
Lemma translate_quoted_bounded (n : nat) :
  forall f X,
    (String.length f <= n)%nat ->
    translate_newlines (double_quotes f ++ String QUOTE X)
    = (double_quotes (translate_newlines f) ++ String QUOTE (translate_newlines X))%string.
Proof.
  induction n as [|n IH]; intros f X Hlen.
  - destruct f; [reflexivity | simpl in Hlen; lia].
  - destruct f as [|c f]; [reflexivity|]. simpl in Hlen.
    destruct (Ascii.eqb c CR) eqn:Hc.
    + apply Ascii.eqb_eq in Hc. subst c.
      destruct f as [|d f]; [reflexivity|]. simpl in Hlen.
      destruct (Ascii.eqb d LF) eqn:Hd.
      * apply Ascii.eqb_eq in Hd. subst d.
        change (double_quotes (String CR (String LF f)))
          with (String CR (String LF (double_quotes f))).
        change (translate_newlines (String CR (String LF f)))
          with (String LF (translate_newlines f)).
        cbn [append translate_newlines double_quotes].
        change (Ascii.eqb CR CR) with true. change (Ascii.eqb LF LF) with true.
        change (Ascii.eqb LF QUOTE) with false.
        cbn iota. cbn [append]. rewrite IH by lia. reflexivity.
      * assert (Ht : translate_newlines (String CR (String d f))
                     = String LF (translate_newlines (String d f))).
        { cbn [translate_newlines]. change (Ascii.eqb CR CR) with true.
          cbn iota. now rewrite Hd. }
        rewrite Ht.
        change (double_quotes (String LF (translate_newlines (String d f))))
          with (String LF (double_quotes (translate_newlines (String d f)))).
        cbn [append]. rewrite <- IH by (simpl; lia).
        change (double_quotes (String CR (String d f)))
          with (String CR (double_quotes (String d f))).
        cbn [append translate_newlines]. change (Ascii.eqb CR CR) with true.
        cbn iota. cbn [double_quotes].
        destruct (Ascii.eqb d QUOTE) eqn:Hq.
        -- cbn [append]. change (Ascii.eqb QUOTE LF) with false. reflexivity.
        -- cbn [append]. now rewrite Hd.
    + assert (Ht : translate_newlines (String c f) = String c (translate_newlines f)).
      { cbn [translate_newlines]. now rewrite Hc. }
      rewrite Ht. cbn [double_quotes].
      destruct (Ascii.eqb c QUOTE) eqn:Hq.
      * apply Ascii.eqb_eq in Hq. subst c.
        cbn [append translate_newlines]. change (Ascii.eqb QUOTE CR) with false.
        cbn iota. rewrite IH by lia. reflexivity.
      * cbn [append translate_newlines]. rewrite Hc, IH by lia. reflexivity.
Qed.

Lemma translate_field_text (f X : string) :
  translate_newlines (field_text f ++ X)
  = (field_text (translate_newlines f) ++ translate_newlines X)%string.
Proof.
  unfold field_text. rewrite needs_quote_translate.
  destruct (needs_quote f) eqn:Hn.
  - rewrite !app_assoc. cbn [s1 append translate_newlines].
    change (Ascii.eqb QUOTE CR) with false. cbn iota.
    now rewrite (translate_quoted_bounded (String.length f)) by lia.
  - apply needs_quote_cr_free in Hn.
    now rewrite (translate_cr_free_id f Hn), translate_app_cr_free.
Qed.

Lemma translate_fields (fs : list string) :
  forall f rest,
    translate_newlines
      (Str.join (s1 COMMA) (map field_text (f :: fs)) ++ String CR (String LF rest))
    = (Str.join (s1 COMMA) (map field_text (map translate_newlines (f :: fs)))
       ++ String LF (translate_newlines rest))%string.
Proof.
  induction fs as [|g fs IH]; intros f rest.
  - cbn [map Str.join String.concat]. now rewrite translate_field_text.
  - cbn [map]. rewrite !CsvFacts.join_cons, !app_assoc, translate_field_text.
    cbn [s1 append translate_newlines]. change (Ascii.eqb COMMA CR) with false.
    cbn iota.
    change (field_text g :: map field_text fs) with (map field_text (g :: fs)).
    rewrite IH. reflexivity.
Qed.

Lemma join_fields_empty (f : string) (fs : list string) :
  Str.join (s1 COMMA) (map field_text (f :: fs)) = EmptyString ->
  f = EmptyString /\ fs = [].
Proof.
  destruct fs as [|g fs].
  - cbn. intros H. now apply CsvFacts.field_text_empty in H.
  - cbn [map]. rewrite CsvFacts.join_cons. destruct (field_text f); discriminate.
Qed.

Lemma translate_record (row : list string) (rest : string) :
  translate_newlines (record_text row ++ String CR (String LF rest))
  = (record_text (map translate_newlines row)
     ++ String LF (translate_newlines rest))%string.
Proof.
  destruct row as [|f fs]; [reflexivity|].
  pose proof (translate_fields fs f rest) as Hfields.
  pose proof (join_fields_empty f fs) as He.
  pose proof (join_fields_empty (translate_newlines f) (map translate_newlines fs))
    as He'.
  unfold record_text. cbn [length map Nat.ltb Nat.leb andb] in *.
  destruct (String.eqb_spec
              (Str.join (s1 COMMA) (field_text f :: map field_text fs)) "")
    as [Hj|Hj].
  - destruct (He Hj) as [-> ->]. reflexivity.
  - destruct (String.eqb_spec
                (Str.join (s1 COMMA)
                   (field_text (translate_newlines f)
                    :: map field_text (map translate_newlines fs))) "")
      as [Hj'|_]; [|exact Hfields].
    destruct (He' Hj') as [Hf Hfs]. apply translate_empty in Hf. subst f.
    destruct fs; [|discriminate Hfs]. now contradiction Hj.
Qed.

Lemma translate_writerows_any (rows : list (list string)) :
  translate_newlines (writerows rows) = lf_text (map (map translate_newlines) rows).
Proof.
  induction rows as [|row rows IH]; [reflexivity|].
  cbn [writerows map lf_text]. unfold writerow.
  rewrite !app_assoc. cbn [s1 append].
  now rewrite translate_record, IH.
Qed.

Lemma map_translate_cr_free (row : list string) :
  Forall (fun f => cr_free f = true) row -> map translate_newlines row = row.
Proof.
  induction 1 as [|f fs Hf _ IH]; [reflexivity|].
  cbn [map]. now rewrite (translate_cr_free_id f Hf), IH.
Qed.

End RoundTripFacts.

(** X13.  What [write_csv] wrote is read back field by field with one
    change only: in every field a carriage return followed by a line
    feed, and a carriage return alone, have become a line feed.  The
    number of rows and of fields, and every comma, quote and line feed,
    come back as written; headers and rows without carriage return come
    back unchanged.  This is said for fields that, as read back, have at
    most 131072 characters: the reader refuses longer ones with
    [csv.Error], which the automaton of this file does not model. *)
Theorem csv_read_back (headers : list string) (rows : list (list string)) :
  Forall fits_field headers ->
  Forall (Forall fits_field) rows ->
  read_csv (write_csv headers rows)
  = Ok (map Csv.translate_newlines headers,
        map (map Csv.translate_newlines) rows) /\
  (Forall (fun f => cr_free f = true) headers ->
   Forall (Forall (fun f => cr_free f = true)) rows ->
   read_csv (write_csv headers rows) = Ok (headers, rows)).
Proof.
  intros _ _.
  assert (Hgen : read_csv (write_csv headers rows)
                 = Ok (map Csv.translate_newlines headers,
                       map (map Csv.translate_newlines) rows)).
  { unfold read_csv, Csv.reader, Csv.readlines.
    change (write_csv headers rows) with (Csv.writerows (headers :: rows)).
    rewrite RoundTripFacts.translate_writerows_any.
    rewrite (CsvFacts.read_feed _ Csv.fresh EmptyString Csv.fresh
               (map (map Csv.translate_newlines) (headers :: rows)) Csv.fresh);
      try reflexivity.
    apply CsvFacts.feed_lf_text. }
  split; [exact Hgen|].
  intros Hh Hrows. rewrite Hgen.
  rewrite (RoundTripFacts.map_translate_cr_free headers Hh).
  do 2 f_equal. clear Hgen.
  induction Hrows as [|row rows' Hrow _ IH]; [reflexivity|].
  cbn [map]. now rewrite (RoundTripFacts.map_translate_cr_free row Hrow), IH.
Qed.

Lemma csv_read_back_witness :
  read_csv (write_csv ["title"; "author"] [[lf_title; "a,b"; quoted_word]; []; [""]])
  = Ok (["title"; "author"], [[lf_title; "a,b"; quoted_word]; []; [""]]).
Proof.
  apply (csv_read_back ["title"; "author"] [[lf_title; "a,b"; quoted_word]; []; [""]]);
    repeat constructor; vm_compute; discriminate.
Defined.

